(** * CFGParser: a shallow embedding of the configuration parser

    The development follows the C++ module [CFGParser]: the document model
    ([Section], here [SectionData], the word being taken; [SectionDataHash]),
    the character-driven [load] loop with its
    thirteen parse actions, the writer [save], and the query layer
    ([getString], [getArray], [getVec2] ..., [set]).

    Modelling conventions.
    - [std::string] is [string]; a character read by [file.get()] is an
      [ascii]; end of input is the absence of a character.
    - [std::unordered_map<std::string, X>] is [gmap string X].  Its iteration
      order is unspecified in C++, so [save] is modelled on an explicit
      traversal (any permutation of the map's entries).
    - [Section* section_ptr] is [option string]: the name of the entry it
      points to.  References into an [unordered_map] survive insertions and
      [load] never erases, so the name identifies the entry.
    - [uint32_t] counters are [N] with the wrap-around written out.
    - the static [_msg_functor] is [option (list string)]: [None] is an empty
      [std::function], [Some log] an installed callback that has so far been
      called with the messages of [log], in order.
    - the file system is a function from paths to contents; [None] is a file
      that cannot be opened.  A nested [load] may recurse for ever (a file
      including itself), so [load] carries the include depth as fuel. *)

From stdpp Require Import gmap strings list fin_maps pretty.
From Stdlib Require Import Ascii ZArith Lia.

Open Scope N_scope.

(** ** Characters and strings *)

Definition ch_newline : ascii := "010"%char.
Definition ch_quote : ascii := "034"%char.
Definition ch_apostrophe : ascii := "'"%char.
Definition ch_backslash : ascii := "\"%char.

(** [s += c] *)
Definition push_back (s : string) (c : ascii) : string :=
  s +:+ String c EmptyString.

Definition quoted (s : string) : string :=
  String ch_quote s +:+ String ch_quote EmptyString.

(** [std::string::empty] *)
Definition string_empty (s : string) : bool :=
  match s with EmptyString => true | String _ _ => false end.

Definition uint32_incr (n : N) : N := (n + 1) mod 2 ^ 32.

(** ** Document model *)

Record SectionData := mkSection {
  inheritances : list string;
  attributes : list string;
  values : gmap string string
}.

Definition empty_section : SectionData :=
  {| inheritances := []; attributes := []; values := ∅ |}.

Record CFGParser := mkParser {
  _section_data : gmap string SectionData;
  _msg_functor : option (list string);
  _current_file : string;
  _base_path : string
}.

Definition with_section_data (d : gmap string SectionData) (G : CFGParser) :=
  {| _section_data := d; _msg_functor := _msg_functor G;
     _current_file := _current_file G; _base_path := _base_path G |}.

Definition with_current_file (f : string) (G : CFGParser) :=
  {| _section_data := _section_data G; _msg_functor := _msg_functor G;
     _current_file := f; _base_path := _base_path G |}.

(** [if (_msg_functor) _msg_functor(m);] *)
Definition notify (m : string) (G : CFGParser) : CFGParser :=
  {| _section_data := _section_data G;
     _msg_functor := (λ log, log ++ [m]) <$> _msg_functor G;
     _current_file := _current_file G; _base_path := _base_path G |}.

(** The parser as its constructor leaves it: [setDefaultCallback] has
    installed a callback, nothing is loaded. *)
Definition new_parser : CFGParser :=
  {| _section_data := ∅; _msg_functor := Some [];
     _current_file := EmptyString; _base_path := EmptyString |}.

(** ** The locals of [load] *)

Inductive ParseAction :=
| NEW_LINE | SECTION | INHERITANCE | ATTRIBUTE | KEY | VALUE | VALUE_ARRAY
| STRING_VALUE | COMMENT | MULTILINE_COMMENT | PREPROCESSOR | INCLUDE | ERROR.

#[global] Instance ParseAction_eq_dec : EqDecision ParseAction.
Proof. solve_decision. Defined.

Record Locals := mkLocals {
  section : string;
  inheritance : string;
  attribute : string;
  key : string;
  value : string;
  preprocessor_first : string;
  preprocessor_second : string;
  section_ptr : option string;
  parse_action : ParseAction;
  line : N;
  character_pos : N;
  ignore_current_spaces : bool
}.

Definition initial_locals : Locals :=
  {| section := EmptyString; inheritance := EmptyString;
     attribute := EmptyString; key := EmptyString; value := EmptyString;
     preprocessor_first := EmptyString; preprocessor_second := EmptyString;
     section_ptr := None; parse_action := NEW_LINE;
     line := 1; character_pos := 0; ignore_current_spaces := true |}.

Definition with_section (x : string) (L : Locals) :=
  mkLocals x (inheritance L) (attribute L) (key L) (value L)
    (preprocessor_first L) (preprocessor_second L) (section_ptr L)
    (parse_action L) (line L) (character_pos L) (ignore_current_spaces L).

Definition with_inheritance (x : string) (L : Locals) :=
  mkLocals (section L) x (attribute L) (key L) (value L)
    (preprocessor_first L) (preprocessor_second L) (section_ptr L)
    (parse_action L) (line L) (character_pos L) (ignore_current_spaces L).

Definition with_attribute (x : string) (L : Locals) :=
  mkLocals (section L) (inheritance L) x (key L) (value L)
    (preprocessor_first L) (preprocessor_second L) (section_ptr L)
    (parse_action L) (line L) (character_pos L) (ignore_current_spaces L).

Definition with_key (x : string) (L : Locals) :=
  mkLocals (section L) (inheritance L) (attribute L) x (value L)
    (preprocessor_first L) (preprocessor_second L) (section_ptr L)
    (parse_action L) (line L) (character_pos L) (ignore_current_spaces L).

Definition with_value (x : string) (L : Locals) :=
  mkLocals (section L) (inheritance L) (attribute L) (key L) x
    (preprocessor_first L) (preprocessor_second L) (section_ptr L)
    (parse_action L) (line L) (character_pos L) (ignore_current_spaces L).

Definition with_preprocessor_first (x : string) (L : Locals) :=
  mkLocals (section L) (inheritance L) (attribute L) (key L) (value L)
    x (preprocessor_second L) (section_ptr L)
    (parse_action L) (line L) (character_pos L) (ignore_current_spaces L).

Definition with_preprocessor_second (x : string) (L : Locals) :=
  mkLocals (section L) (inheritance L) (attribute L) (key L) (value L)
    (preprocessor_first L) x (section_ptr L)
    (parse_action L) (line L) (character_pos L) (ignore_current_spaces L).

Definition with_section_ptr (x : option string) (L : Locals) :=
  mkLocals (section L) (inheritance L) (attribute L) (key L) (value L)
    (preprocessor_first L) (preprocessor_second L) x
    (parse_action L) (line L) (character_pos L) (ignore_current_spaces L).

Definition with_parse_action (x : ParseAction) (L : Locals) :=
  mkLocals (section L) (inheritance L) (attribute L) (key L) (value L)
    (preprocessor_first L) (preprocessor_second L) (section_ptr L)
    x (line L) (character_pos L) (ignore_current_spaces L).

Definition with_line (x : N) (L : Locals) :=
  mkLocals (section L) (inheritance L) (attribute L) (key L) (value L)
    (preprocessor_first L) (preprocessor_second L) (section_ptr L)
    (parse_action L) x (character_pos L) (ignore_current_spaces L).

Definition with_character_pos (x : N) (L : Locals) :=
  mkLocals (section L) (inheritance L) (attribute L) (key L) (value L)
    (preprocessor_first L) (preprocessor_second L) (section_ptr L)
    (parse_action L) (line L) x (ignore_current_spaces L).

Definition with_ignore_current_spaces (x : bool) (L : Locals) :=
  mkLocals (section L) (inheritance L) (attribute L) (key L) (value L)
    (preprocessor_first L) (preprocessor_second L) (section_ptr L)
    (parse_action L) (line L) (character_pos L) x.

(** ** The lambdas of [load] *)

Definition GetErrorLineString (L : Locals) : string :=
  "Error at line '" +:+ pretty (line L) +:+
  "', character at '" +:+ pretty (character_pos L) +:+ "' : ".

Definition msg (message : string) (L : Locals) (G : CFGParser) : CFGParser :=
  notify (GetErrorLineString L +:+ message) G.

(** Writes through [section_ptr]: the entry named [p] is updated in place. *)
Definition update_section (p : string) (f : SectionData → SectionData)
    (G : CFGParser) : CFGParser :=
  with_section_data (alter f p (_section_data G)) G.

Definition push_inheritance (x : string) (s : SectionData) : SectionData :=
  {| inheritances := inheritances s ++ [x]; attributes := attributes s;
     values := values s |}.

Definition push_attribute (x : string) (s : SectionData) : SectionData :=
  {| inheritances := inheritances s; attributes := attributes s ++ [x];
     values := values s |}.

Definition with_values (v : gmap string string) (s : SectionData) : SectionData :=
  {| inheritances := inheritances s; attributes := attributes s; values := v |}.

Definition PushInheritance (L : Locals) (G : CFGParser) : Locals * CFGParser :=
  match section_ptr L with
  | Some p =>
      if string_empty (inheritance L) then (L, G)
      else
        (with_inheritance EmptyString L,
         match _section_data G !! inheritance L with
         | Some _ => update_section p (push_inheritance (inheritance L)) G
         | None =>
             msg ("Inherited section " +:+ quoted (inheritance L) +:+
                  " is not exist!") L G
         end)
  | None => (L, G)
  end.

Definition PushAttribute (L : Locals) (G : CFGParser) : Locals * CFGParser :=
  match section_ptr L with
  | Some p =>
      if string_empty (attribute L) then (L, G)
      else (with_attribute EmptyString L,
            update_section p (push_attribute (attribute L)) G)
  | None => (L, G)
  end.

(** ** One iteration of the [while] loop of [load]

    A case of the outer [switch] either breaks ([Continue]), breaks after
    having called [file.get()] a second time ([ContinueAfterGet], the escape
    sequence of a string value), or never comes back because the nested
    [load] of an include does not ([NoReturn]). *)

Inductive Outcome :=
| Continue (L : Locals) (G : CFGParser)
| ContinueAfterGet (L : Locals) (G : CFGParser)
| NoReturn.

Definition append_to_value (c : ascii) (L : Locals) : Locals :=
  with_value (push_back (value L) c) L.

Definition error (message : string) (L : Locals) (G : CFGParser) : Outcome :=
  Continue (with_parse_action ERROR L) (msg message L G).

(** [case comment_character:] *)
Definition case_comment_character (c : ascii) (L : Locals) (G : CFGParser) : Outcome :=
  match parse_action L with
  | STRING_VALUE => Continue (append_to_value c L) G
  | _ => Continue (with_parse_action COMMENT L) G
  end.

(** [case comment_multiline:] *)
Definition case_comment_multiline (c : ascii) (L : Locals) (G : CFGParser) : Outcome :=
  match parse_action L with
  | STRING_VALUE => Continue (append_to_value c L) G
  | MULTILINE_COMMENT => Continue (with_parse_action NEW_LINE L) G
  | _ => Continue (with_parse_action MULTILINE_COMMENT L) G
  end.

(** [case ' ': case '\t':] *)
Definition case_space (c : ascii) (L : Locals) (G : CFGParser) : Outcome :=
  match parse_action L with
  | STRING_VALUE => Continue (append_to_value c L) G
  | PREPROCESSOR =>
      Continue
        (with_preprocessor_first EmptyString
           (if String.eqb (preprocessor_first L) "include"
            then with_parse_action INCLUDE L else L)) G
  | ATTRIBUTE | INHERITANCE | KEY | SECTION | VALUE =>
      if ignore_current_spaces L then Continue L G
      else Continue (with_parse_action ERROR L) (msg "Space in wrong place" L G)
  | _ => Continue L G
  end.

(** [case '\\':]; [next] is what the inner [file.get()] returns, [None] at
    the end of the input. *)
Definition case_backslash (next : option ascii) (L : Locals) (G : CFGParser) : Outcome :=
  match parse_action L with
  | COMMENT | MULTILINE_COMMENT => Continue L G
  | STRING_VALUE =>
      match next with
      | Some "\"%char => ContinueAfterGet (append_to_value ch_backslash L) G
      | Some "n"%char => ContinueAfterGet (append_to_value ch_newline L) G
      | Some "034"%char => ContinueAfterGet (append_to_value ch_quote L) G
      | Some "'"%char => ContinueAfterGet (append_to_value ch_apostrophe L) G
      | _ => ContinueAfterGet L (msg "Unknown escape-sequence symbol" L G)
      end
  | _ => error "Unexpected escape-symbol" L G
  end.

(** The case of the double quote. *)
Definition case_quote (L : Locals) (G : CFGParser) : Outcome :=
  match parse_action L with
  | STRING_VALUE => Continue (with_parse_action VALUE L) G
  | VALUE => Continue (with_parse_action STRING_VALUE L) G
  | _ => Continue L G
  end.

(** [case '#':] *)
Definition case_hash (c : ascii) (L : Locals) (G : CFGParser) : Outcome :=
  match parse_action L with
  | COMMENT | MULTILINE_COMMENT => Continue L G
  | NEW_LINE => Continue (with_parse_action PREPROCESSOR L) G
  | STRING_VALUE => Continue (append_to_value c L) G
  | _ => error "Preprocessor parse error" L G
  end.

(** The inner [switch] of [case '\n':]. *)
Definition newline_flush (L : Locals) (G : CFGParser) : Locals * CFGParser :=
  match parse_action L with
  | COMMENT | MULTILINE_COMMENT => (L, G)
  | INHERITANCE => PushInheritance L G
  | PREPROCESSOR | INCLUDE => (L, G)
  | ATTRIBUTE => PushAttribute L G
  | VALUE | VALUE_ARRAY =>
      (with_value EmptyString (with_key EmptyString L),
       match section_ptr L with
       | Some p =>
           update_section p
             (λ s, with_values (<[key L := value L]> (values s)) s) G
       | None => G
       end)
  | STRING_VALUE | NEW_LINE => (L, G)
  | SECTION => (with_parse_action NEW_LINE L, G)
  | ERROR | KEY => (with_parse_action ERROR L, msg "New line parse error" L G)
  end.

(** [case '\n':] *)
Definition case_newline (L : Locals) (G : CFGParser) : Outcome :=
  let '(L1, G1) := newline_flush L G in
  let L2 :=
    match parse_action L1 with
    | STRING_VALUE | MULTILINE_COMMENT => L1
    | _ => with_character_pos 0 (with_parse_action NEW_LINE L1)
    end in
  Continue
    (with_ignore_current_spaces true (with_line (uint32_incr (line L2)) L2)) G1.

(** [case '<':] *)
Definition case_less (c : ascii) (L : Locals) (G : CFGParser) : Outcome :=
  match parse_action L with
  | STRING_VALUE => Continue (append_to_value c L) G
  | _ => Continue L G
  end.

(** [IncludeFile]; [load] is the recursive call. *)
Definition IncludeFile (load : string → CFGParser → option CFGParser)
    (path : string) (G : CFGParser) : option CFGParser :=
  let file := _current_file G in
  with_current_file file <$> load (_base_path G +:+ path) G.

(** [case '>':] *)
Definition case_greater (load : string → CFGParser → option CFGParser)
    (c : ascii) (L : Locals) (G : CFGParser) : Outcome :=
  match parse_action L with
  | STRING_VALUE => Continue (append_to_value c L) G
  | INCLUDE =>
      match IncludeFile load (preprocessor_second L) G with
      | Some G' => Continue (with_preprocessor_second EmptyString L) G'
      | None => NoReturn
      end
  | _ => Continue L G
  end.

(** [case '[':] *)
Definition case_open_bracket (c : ascii) (L : Locals) (G : CFGParser) : Outcome :=
  match parse_action L with
  | COMMENT | MULTILINE_COMMENT => Continue L G
  | NEW_LINE =>
      Continue
        (with_section_ptr None
           (with_section EmptyString
              (with_parse_action SECTION
                 (with_ignore_current_spaces false L)))) G
  | STRING_VALUE => Continue (append_to_value c L) G
  | _ => error "Section naming parse error" L G
  end.

(** [case ']':]; [try_emplace] inserts only when the name is new. *)
Definition case_close_bracket (c : ascii) (L : Locals) (G : CFGParser) : Outcome :=
  match parse_action L with
  | COMMENT | MULTILINE_COMMENT => Continue L G
  | SECTION =>
      match _section_data G !! section L with
      | None =>
          Continue
            (with_ignore_current_spaces true
               (with_section_ptr (Some (section L)) L))
            (with_section_data
               (<[section L := empty_section]> (_section_data G)) G)
      | Some _ =>
          Continue (with_ignore_current_spaces true L)
            (msg ("Section " +:+ quoted (section L) +:+ " already exist.") L G)
      end
  | STRING_VALUE => Continue (append_to_value c L) G
  | _ => error "Section naming parse error" L G
  end.

(** [case ',':] *)
Definition case_comma (c : ascii) (L : Locals) (G : CFGParser) : Outcome :=
  match parse_action L with
  | COMMENT | MULTILINE_COMMENT => Continue L G
  | INHERITANCE => let '(L', G') := PushInheritance L G in Continue L' G'
  | ATTRIBUTE => let '(L', G') := PushAttribute L G in Continue L' G'
  | STRING_VALUE | VALUE_ARRAY => Continue (append_to_value c L) G
  | VALUE => Continue (append_to_value c (with_parse_action VALUE_ARRAY L)) G
  | _ => error "Enumeration error" L G
  end.

(** [case ':':] *)
Definition case_colon (c : ascii) (L : Locals) (G : CFGParser) : Outcome :=
  match parse_action L with
  | COMMENT | MULTILINE_COMMENT => Continue L G
  | SECTION => Continue (with_parse_action INHERITANCE L) G
  | STRING_VALUE => Continue (append_to_value c L) G
  | _ => error "Inheritance error" L G
  end.

(** The [KEY] branch of [case '=':]: [values.try_emplace(key, {})]. *)
Definition register_key (L : Locals) (G : CFGParser) : CFGParser :=
  match section_ptr L with
  | Some p =>
      match _section_data G !! p with
      | Some s =>
          match values s !! key L with
          | None =>
              update_section p
                (λ s, with_values (<[key L := EmptyString]> (values s)) s) G
          | Some _ =>
              msg ("Section " +:+ quoted (section L) +:+ " key " +:+
                   quoted (key L) +:+ " already exist.") L G
          end
      | None => G
      end
  | None => G
  end.

(** [case '=':] *)
Definition case_equals (c : ascii) (L : Locals) (G : CFGParser) : Outcome :=
  match parse_action L with
  | COMMENT | MULTILINE_COMMENT => Continue L G
  | SECTION => Continue (with_parse_action ATTRIBUTE L) G
  | INHERITANCE =>
      let '(L', G') := PushInheritance L G in
      Continue (with_parse_action ATTRIBUTE L') G'
  | KEY => Continue (with_parse_action VALUE L) (register_key L G)
  | STRING_VALUE => Continue (append_to_value c L) G
  | _ => error "Set value error" L G
  end.

(** [default:] *)
Definition case_default (c : ascii) (L : Locals) (G : CFGParser) : Outcome :=
  match parse_action L with
  | COMMENT | MULTILINE_COMMENT => Continue L G
  | NEW_LINE =>
      Continue (with_key (push_back (key L) c) (with_parse_action KEY L)) G
  | PREPROCESSOR =>
      Continue (with_preprocessor_first (push_back (preprocessor_first L) c) L) G
  | INCLUDE =>
      Continue (with_preprocessor_second (push_back (preprocessor_second L) c) L) G
  | SECTION => Continue (with_section (push_back (section L) c) L) G
  | INHERITANCE => Continue (with_inheritance (push_back (inheritance L) c) L) G
  | ATTRIBUTE => Continue (with_attribute (push_back (attribute L) c) L) G
  | KEY => Continue (with_key (push_back (key L) c) L) G
  | VALUE | VALUE_ARRAY | STRING_VALUE => Continue (append_to_value c L) G
  | ERROR => error "Invalid character error" L G
  end.

(** [switch (character)] *)
Definition dispatch (load : string → CFGParser → option CFGParser)
    (c : ascii) (next : option ascii) (L : Locals) (G : CFGParser) : Outcome :=
  match c with
  | ";"%char => case_comment_character c L G
  | "|"%char => case_comment_multiline c L G
  | " "%char | "009"%char => case_space c L G
  | "\"%char => case_backslash next L G
  | "034"%char => case_quote L G
  | "#"%char => case_hash c L G
  | "010"%char => case_newline L G
  | "<"%char => case_less c L G
  | ">"%char => case_greater load c L G
  | "["%char => case_open_bracket c L G
  | "]"%char => case_close_bracket c L G
  | ","%char => case_comma c L G
  | ":"%char => case_colon c L G
  | "="%char => case_equals c L G
  | _ => case_default c L G
  end.

Definition incr_character_pos (L : Locals) : Locals :=
  with_character_pos (uint32_incr (character_pos L)) L.

(** [while (!file.eof())]: [cs] is what is left of the file.  At the end of
    the input [file.get()] returns a negative value, which the loop turns
    into a newline; [eof] is then set and the loop ends.  It also ends when
    the second [get] of an escape sequence has hit the end. *)
Fixpoint scan (load : string → CFGParser → option CFGParser)
    (cs : list ascii) (L : Locals) (G : CFGParser) : option (Locals * CFGParser) :=
  match cs with
  | [] =>
      match dispatch load ch_newline None L G with
      | Continue L' G' | ContinueAfterGet L' G' =>
          Some (incr_character_pos L', G')
      | NoReturn => None
      end
  | c :: rest =>
      match dispatch load c (head rest) L G with
      | Continue L' G' => scan load rest (incr_character_pos L') G'
      | ContinueAfterGet L' G' =>
          match rest with
          | [] => Some (incr_character_pos L', G')
          | _ :: rest' => scan load rest' (incr_character_pos L') G'
          end
      | NoReturn => None
      end
  end.

Section Load.

(** The files [std::ifstream] can open, with their contents. *)
Variable fs : string → option string.

(** [void load(const std::string& file_path)]; the fuel bounds the depth of
    nested includes, [None] is a recursion deeper than that. *)
Fixpoint load (fuel : nat) (file_path : string) (G : CFGParser) : option CFGParser :=
  match fuel with
  | O => None
  | S fuel' =>
      let G1 := with_current_file file_path G in
      match fs file_path with
      | None => Some (notify ("Cannot open file " +:+ quoted file_path +:+ ".") G1)
      | Some content =>
          snd <$> scan (load fuel') (String.list_ascii_of_string content) initial_locals G1
      end
  end.

End Load.

(** ** [save]

    [for (const auto& pair : _section_data)] visits every entry once, in an
    order the standard leaves open; likewise the inner loop over [values].
    A traversal lists the entries in the order visited, each section with
    the order in which its values are visited. *)

Definition Traversal := list (string * SectionData * list (string * string)).

Definition is_traversal (D : gmap string SectionData) (t : Traversal) : Prop :=
  fst <$> t ≡ₚ map_to_list D ∧
  Forall (λ e, e.2 ≡ₚ map_to_list (values e.1.2)) t.

(** The loop over a name list: [", "] before every element but the first. *)
Fixpoint write_names (first : bool) (l : list string) : string :=
  match l with
  | [] => EmptyString
  | x :: l' => (if first then x else ", " +:+ x) +:+ write_names false l'
  end.

Definition write_values (kvs : list (string * string)) : string :=
  foldr (λ kv out, kv.1 +:+ " = " +:+ kv.2 +:+ String ch_newline out)
    EmptyString kvs.

Definition write_section (name : string) (s : SectionData)
    (kvs : list (string * string)) : string :=
  "[" +:+ name +:+ "]" +:+
  (match inheritances s with
   | [] => EmptyString
   | l => " : " +:+ write_names true l
   end) +:+
  (match attributes s with
   | [] => EmptyString
   | l => " = " +:+ write_names true l
   end) +:+
  String ch_newline (write_values kvs +:+ String ch_newline EmptyString).

(** What [save] writes to the file when it visits the document as [t]. *)
Definition save (t : Traversal) : string :=
  foldr (λ e out, write_section e.1.1 e.1.2 e.2 +:+ out) EmptyString t.

(** ** Queries *)

Definition hasSection (G : CFGParser) (sec : string) : bool :=
  bool_decide (is_Some (_section_data G !! sec)).

Definition hasKey (G : CFGParser) (sec k : string) : bool * CFGParser :=
  match _section_data G !! sec with
  | Some s => (bool_decide (is_Some (values s !! k)), G)
  | None => (false, notify ("Section " +:+ quoted sec +:+ " is not exist!") G)
  end.

Definition getAttributes (G : CFGParser) (sec : string) : list string * CFGParser :=
  match _section_data G !! sec with
  | Some s => (attributes s, G)
  | None => ([], notify ("Section " +:+ quoted sec +:+ " is not exist!") G)
  end.

Definition getInheritances (G : CFGParser) (sec : string) : list string * CFGParser :=
  match _section_data G !! sec with
  | Some s => (inheritances s, G)
  | None => ([], notify ("Section " +:+ quoted sec +:+ " is not exist!") G)
  end.

(** The loop of [getValueFromInheritance] over [section_data.inheritances];
    the empty string at the end is [_dummy_str]. *)
Fixpoint getValueFromInheritance_loop (D : gmap string SectionData)
    (bases : list string) (k : string) : string :=
  match bases with
  | [] => EmptyString
  | b :: bases' =>
      match D !! b with
      | Some s =>
          match values s !! k with
          | Some v => v
          | None => getValueFromInheritance_loop D bases' k
          end
      | None => getValueFromInheritance_loop D bases' k
      end
  end.

Definition getValueFromInheritance (G : CFGParser) (section_data : SectionData)
    (k : string) : string :=
  getValueFromInheritance_loop (_section_data G) (inheritances section_data) k.

Definition getString (G : CFGParser) (sec k default_value : string) : string :=
  match _section_data G !! sec with
  | Some s =>
      match values s !! k with
      | Some v => v
      | None =>
          let v := getValueFromInheritance G s k in
          if string_empty v then default_value else v
      end
  | None => default_value
  end.

(** What a call can come to: a value, an exception, or an access outside a
    vector ([operator[]] is unchecked, the behaviour is undefined). *)
Inductive Result (A : Type) :=
| Returned (a : A)
| Thrown
| OutOfBounds.
Arguments Returned {A} a.
Arguments Thrown {A}.
Arguments OutOfBounds {A}.

Record vec2 (T : Type) := mkVec2 { x2 : T; y2 : T }.
Record vec3 (T : Type) := mkVec3 { x3 : T; y3 : T; z3 : T }.
Record vec4 (T : Type) := mkVec4 { x4 : T; y4 : T; z4 : T; w4 : T }.
Arguments mkVec2 {T}.
Arguments mkVec3 {T}.
Arguments mkVec4 {T}.

Section Typed.

Variable T : Type.

(** [makeValueFromString<T>]: the conversions of the standard library
    ([std::stoi] and the like); [None] is the exception they throw on text
    that is no number. *)
Variable makeValueFromString : string → option T.

(** [std::to_string] *)
Variable to_string : T → string.

Definition get (G : CFGParser) (sec k : string) (default_value : T) : Result T :=
  let str := getString G sec k EmptyString in
  if string_empty str then Returned default_value
  else match makeValueFromString str with
       | Some v => Returned v
       | None => Thrown
       end.

Definition set (G : CFGParser) (sec k : string) (v : T) : CFGParser :=
  match _section_data G !! sec with
  | Some s =>
      match values s !! k with
      | Some _ =>
          update_section sec
            (λ s, with_values (<[k := to_string v]> (values s)) s) G
      | None =>
          notify ("Section " +:+ quoted sec +:+ " key " +:+ quoted k +:+
                  " is not exist!") G
      end
  | None => notify ("Section " +:+ quoted sec +:+ " is not exist!") G
  end.

(** The loop of [getArray] and the push of the last element after it. *)
Fixpoint getArray_loop (str num_str : string) (result : list T) : option (list T) :=
  match str with
  | EmptyString =>
      match makeValueFromString num_str with
      | Some v => Some (result ++ [v])
      | None => None
      end
  | String c str' =>
      if Ascii.eqb c ","%char then
        match makeValueFromString num_str with
        | Some v => getArray_loop str' EmptyString (result ++ [v])
        | None => None
        end
      else getArray_loop str' (push_back num_str c) result
  end.

Definition getArray (G : CFGParser) (sec k : string) : Result (list T) :=
  let str := getString G sec k EmptyString in
  if string_empty str then Returned []
  else match getArray_loop str EmptyString [] with
       | Some l => Returned l
       | None => Thrown
       end.

(** [_msg_functor(m)] without the test: an empty [std::function] throws. *)
Definition call_msg_functor (m : string) (G : CFGParser) : Result CFGParser :=
  match _msg_functor G with
  | Some _ => Returned (notify m G)
  | None => Thrown
  end.

Definition cannot_find (sec k : string) : string :=
  "Cannot find " +:+ String ch_quote (sec +:+ String ":"%char k) +:+
  String ch_quote ". Default value will be return...".

(** [vec[i]] *)
Definition at_index (vec : list T) (i : nat) : Result T :=
  match vec !! i with
  | Some v => Returned v
  | None => OutOfBounds
  end.

Definition bind {A B} (r : Result A) (f : A → Result B) : Result B :=
  match r with
  | Returned a => f a
  | Thrown => Thrown
  | OutOfBounds => OutOfBounds
  end.

Definition getVec2 (G : CFGParser) (sec k : string) (default_value : vec2 T)
    : Result (vec2 T * CFGParser) :=
  bind (getArray G sec k) (λ vec,
    match vec with
    | _ :: _ =>
        bind (at_index vec 0) (λ a, bind (at_index vec 1) (λ b,
          Returned (mkVec2 a b, G)))
    | [] =>
        bind (call_msg_functor (cannot_find sec k) G) (λ G',
          Returned (default_value, G'))
    end).

Definition getVec3 (G : CFGParser) (sec k : string) (default_value : vec3 T)
    : Result (vec3 T * CFGParser) :=
  bind (getArray G sec k) (λ vec,
    match vec with
    | _ :: _ =>
        bind (at_index vec 0) (λ a, bind (at_index vec 1) (λ b,
        bind (at_index vec 2) (λ c, Returned (mkVec3 a b c, G))))
    | [] =>
        bind (call_msg_functor (cannot_find sec k) G) (λ G',
          Returned (default_value, G'))
    end).

Definition getVec4 (G : CFGParser) (sec k : string) (default_value : vec4 T)
    : Result (vec4 T * CFGParser) :=
  bind (getArray G sec k) (λ vec,
    match vec with
    | _ :: _ =>
        bind (at_index vec 0) (λ a, bind (at_index vec 1) (λ b,
        bind (at_index vec 2) (λ c, bind (at_index vec 3) (λ d,
          Returned (mkVec4 a b c d, G)))))
    | [] =>
        bind (call_msg_functor (cannot_find sec k) G) (λ G',
          Returned (default_value, G'))
    end).

End Typed.

Arguments get {T}.
Arguments set {T}.
Arguments getArray {T}.
Arguments getVec2 {T}.
Arguments getVec3 {T}.
Arguments getVec4 {T}.

(** [std::stoi], base ten: leading white space is skipped, a sign is
    accepted, the longest run of digits is converted and what follows is
    ignored; no digit or a value outside [int] throws. *)
Definition isspace (c : ascii) : bool :=
  match c with
  | " "%char | "009"%char | "010"%char | "011"%char | "012"%char | "013"%char => true
  | _ => false
  end.

Definition digit (c : ascii) : option Z :=
  let n := Z.of_N (N_of_ascii c) in
  if bool_decide (48 ≤ n ≤ 57)%Z then Some (n - 48)%Z else None.

Fixpoint skip_spaces (s : string) : string :=
  match s with
  | String c s' => if isspace c then skip_spaces s' else s
  | EmptyString => s
  end.

Fixpoint read_digits (s : string) (acc : option Z) : option Z :=
  match s with
  | String c s' =>
      match digit c with
      | Some d => read_digits s' (Some (default 0%Z acc * 10 + d)%Z)
      | None => acc
      end
  | EmptyString => acc
  end.

Definition stoi (s : string) : option Z :=
  let s1 := skip_spaces s in
  let '(negative, s2) :=
    match s1 with
    | String "-"%char r => (true, r)
    | String "+"%char r => (false, r)
    | _ => (false, s1)
    end in
  match read_digits s2 None with
  | Some n =>
      let v := if negative then (- n)%Z else n in
      if bool_decide (- 2 ^ 31 ≤ v < 2 ^ 31)%Z then Some v else None
  | None => None
  end.

(** ** The specification's reading of [getString], and example documents *)

(** What the specification says of [getString], word for word: the own
    value, else the value of the first base (in declared order) that defines
    the key, else the default. *)
Definition defines (D : gmap string SectionData) (b k : string) : option string :=
  D !! b ≫= λ s, values s !! k.

Fixpoint first_base_value (D : gmap string SectionData) (bases : list string)
    (k : string) : option string :=
  match bases with
  | [] => None
  | b :: bases' =>
      match defines D b k with
      | Some v => Some v
      | None => first_base_value D bases' k
      end
  end.

Definition getString_spec (G : CFGParser) (sec k d : string) : string :=
  match _section_data G !! sec with
  | None => d
  | Some s =>
      match values s !! k with
      | Some v => v
      | None => default d (first_base_value (_section_data G) (inheritances s) k)
      end
  end.

Definition document (D : gmap string SectionData) : CFGParser :=
  with_section_data D new_parser.

(** [A] inherits [B], and [B] defines [k] with an empty value. *)
Definition doc_empty_base : CFGParser :=
  document
    (<["A" := mkSection ["B"] [] ∅]>
       (<["B" := mkSection [] [] (<["k" := EmptyString]> ∅)]> ∅)).

(** The example of the specification: [[p] k = 5] and [[c] : p]. *)
Definition doc_parent_child : CFGParser :=
  document
    (<["c" := mkSection ["p"] [] ∅]>
       (<["p" := mkSection [] [] (<["k" := "5"]> ∅)]> ∅)).

(** ** Example inputs *)

(** A file system with one file. *)
Definition single_file (path content : string) : string → option string :=
  λ p, if String.eqb p path then Some content else None.

(** The text made of the given lines, each ended by a newline. *)
Definition text (lines : list string) : string :=
  foldr (λ l out, l +:+ String ch_newline out) EmptyString lines.

(** [CFGParser cfg("test.cfg")] on a file with the given lines. *)
Definition parse (lines : list string) : option CFGParser :=
  load (single_file "test.cfg" (text lines)) 1 "test.cfg" new_parser.

(** The stored value of a key, if the section and the key exist. *)
Definition stored (G : CFGParser) (sec k : string) : option string :=
  _section_data G !! sec ≫= λ s, values s !! k.


(** A section [s] with the keys [one], [two] and [three] holding arrays of
    one, two and three numbers. *)
Definition short_arrays : list string :=
  ["[s]"; "one = 1"; "two = 1,2"; "three = 1,2,3"].

(** What a message does to the callback. *)
Definition received (m : string) (f : option (list string)) : option (list string) :=
  (λ log, log ++ [m]) <$> f.

(** A section, the same section declared again with an attribute and a key,
    and another section with an attribute of its own. *)
Definition duplicate_then_other : list string :=
  ["[X]"; "k=1"; "[X] = a"; "j=2"; "[Y] = b"].

(** The same with a base and an attribute on the duplicate header, followed
    by a header whose lists are empty. *)
Definition duplicate_then_empty_lists : list string :=
  ["[B]"; "[X]"; "k=1"; "[X] : B = a"; "j=2"; "[Y] : ="].

(** ** Invariants of the parse *)

(** Every name in an inheritance list is the name of a section. *)
Definition inheritances_closed (D : gmap string SectionData) : Prop :=
  ∀ name s b, D !! name = Some s → b ∈ inheritances s → is_Some (D !! b).

(** A property of the state in which a case of the switch leaves the loop;
    nothing is asked of a case that does not return. *)
Definition after (P : Locals → CFGParser → Prop) (o : Outcome) : Prop :=
  match o with
  | Continue L G | ContinueAfterGet L G => P L G
  | NoReturn => True
  end.

(** A section that inherits a section declared after it. *)
Definition forward_reference : list string := ["[a] : b"; "[b]"; "k = 1"].

(** ** Documents that [save] writes in a form [load] reads back *)

(** The characters with a case of their own in the switch of [load]. *)
Definition plain (c : ascii) : bool :=
  match c with
  | ";"%char | "|"%char | " "%char | "009"%char | "\"%char | "034"%char
  | "#"%char | "010"%char | "<"%char | ">"%char | "["%char | "]"%char
  | ","%char | ":"%char | "="%char => false
  | _ => true
  end.

Definition chars (s : string) : list ascii := String.list_ascii_of_string s.

Definition plain_string (s : string) : bool := forallb plain (chars s).

(** A name that survives the round trip: not empty, plain characters only. *)
Definition name_ok (s : string) : bool :=
  negb (string_empty s) && plain_string s.

(** A value that survives the round trip: plain characters and commas. *)
Definition value_ok (s : string) : bool :=
  forallb (λ c, plain c || Ascii.eqb c ","%char) (chars s).

Definition section_ok (name : string) (s : SectionData) : Prop :=
  plain_string name = true ∧
  Forall (λ b, name_ok b = true) (inheritances s) ∧
  Forall (λ a, name_ok a = true) (attributes s) ∧
  map_Forall (λ k v, name_ok k = true ∧ value_ok v = true) (values s).

Definition document_ok (D : gmap string SectionData) : Prop :=
  map_Forall section_ok D.

(** Every base of a section is the section itself or one of the sections
    visited before it ([seen] holds the names visited so far). *)
Fixpoint bases_first (seen : list string) (t : Traversal) : Prop :=
  match t with
  | [] => True
  | e :: t' =>
      Forall (λ b, b ∈ e.1.1 :: seen) (inheritances e.1.2) ∧
      bases_first (e.1.1 :: seen) t'
  end.

(** The round trip as the specification states it: whatever the document
    and the order in which [save] visits it, loading the saved text into a
    new parser gives the document back. *)
Definition round_trip_as_stated : Prop :=
  ∀ (D : gmap string SectionData) (t : Traversal) fs path,
    is_traversal D t → fs path = Some (save t) →
    ∃ fuel G, load fs fuel path new_parser = Some G ∧ _section_data G = D.

(** A base that can be flushed into the section [name] when the other
    sections are those of [D0]: a proper name, of the section itself or of a
    section of [D0]. *)
Definition base_ok (D0 : gmap string SectionData) (name b : string) : Prop :=
  name_ok b = true ∧ (b = name ∨ is_Some (D0 !! b)).

#[global] Instance SectionData_eq_dec : EqDecision SectionData.
Proof. solve_decision. Defined.

#[global] Instance is_traversal_dec D t : Decision (is_traversal D t).
Proof. unfold is_traversal. apply _. Defined.

#[global] Instance section_ok_dec name s : Decision (section_ok name s).
Proof. unfold section_ok. apply _. Defined.

#[global] Instance document_ok_dec D : Decision (document_ok D).
Proof. unfold document_ok. apply _. Defined.

#[global] Instance bases_first_dec seen t : Decision (bases_first seen t).
Proof. revert seen. induction t as [|e t IH]; intros seen; simpl; apply _. Defined.

(** One section, one key, a value with a space in it (what
    [k = "a b"] parses to). *)
Definition spaced_section : SectionData :=
  mkSection [] [] {["k" := "a b"]}.

Definition spaced_document : gmap string SectionData :=
  {["s" := spaced_section]}.

Definition spaced_traversal : Traversal :=
  [("s", spaced_section, [("k", "a b")])].

(** The document of [[p] = base / k = 5,6] and [[c] : p, c = x, y / j = 1],
    visited base first. *)
Definition family_parent : SectionData :=
  mkSection [] ["base"] {["k" := "5,6"]}.

Definition family_child : SectionData :=
  mkSection ["p"; "c"] ["x"; "y"] {["j" := "1"]}.

Definition family_document : gmap string SectionData :=
  <["c" := family_child]> {["p" := family_parent]}.

Definition family_traversal : Traversal :=
  [("p", family_parent, [("k", "5,6")]); ("c", family_child, [("j", "1")])].

(** The section [X] holds [sX] and is not the one [section_ptr] points to. *)
Definition frozen (X : string) (sX : SectionData) (L : Locals) (G : CFGParser) : Prop :=
  _section_data G !! X = Some sX ∧ section_ptr L ≠ Some X.

(** ** The remaining queries *)

(** The loop of [hasAttribute] and of [isInheritedFrom]: the first element
    equal to [x] ends it. *)
Fixpoint contains (l : list string) (x : string) : bool :=
  match l with
  | [] => false
  | y :: l' => if String.eqb y x then true else contains l' x
  end.

Definition hasAttribute (G : CFGParser) (sec a : string) : bool :=
  match _section_data G !! sec with
  | Some s => contains (attributes s) a
  | None => false
  end.

Definition hasAttributes (G : CFGParser) (sec : string) : bool * CFGParser :=
  match _section_data G !! sec with
  | Some s => (match attributes s with [] => false | _ :: _ => true end, G)
  | None => (false, notify ("Section " +:+ quoted sec +:+ " is not exist!") G)
  end.

Definition isInheritedFrom (G : CFGParser) (sec base_section : string) : bool :=
  match _section_data G !! sec with
  | Some s => contains (inheritances s) base_section
  | None => false
  end.

Definition hasInheritances (G : CFGParser) (sec : string) : bool * CFGParser :=
  match _section_data G !! sec with
  | Some s => (match inheritances s with [] => false | _ :: _ => true end, G)
  | None => (false, notify ("Section " +:+ quoted sec +:+ " is not exist!") G)
  end.

Definition getSectionCount (G : CFGParser) : nat := size (_section_data G).

(** [saveCurrent]: the file [save] is called on, and what it writes when it
    visits the document as [t]. *)
Definition saveCurrent (G : CFGParser) (t : Traversal) : string * string :=
  (_current_file G, save t).

(** The message of the queries that report a missing section. *)
Definition not_exist (sec : string) : string :=
  "Section " +:+ quoted sec +:+ " is not exist!".



(** A section [s] holding [arr = 10,20,30,40,50]. *)
Definition doc_array : CFGParser :=
  document (<["s" := mkSection [] ["flag"] {["arr" := "10,20,30,40,50"]}]> ∅).

(** ** Further invariants of the parse *)

(** [section_ptr] is null or points to a section of the document. *)
Definition ptr_valid (L : Locals) (G : CFGParser) : Prop :=
  ∀ p, section_ptr L = Some p → is_Some (_section_data G !! p).

(** [G'] has the current file and the base path of [G], and its callback
    has received what that of [G] had, and then [extra]. *)
Definition settings_kept (G G' : CFGParser) : Prop :=
  _current_file G' = _current_file G ∧ _base_path G' = _base_path G ∧
  ∃ extra, _msg_functor G' = (λ log, log ++ extra) <$> _msg_functor G.

(** An include that is skipped. *)
Definition no_include : string → CFGParser → option CFGParser :=
  λ _ G, Some G.

(** A parser that holds the section [q], and a file that declares [q] again
    and a section [r]. *)
Definition doc_q : CFGParser :=
  document (<["q" := mkSection [] ["old"] {["k" := "1"]}]> ∅).

Definition redeclares_q : list string := ["[q] = new"; "k = 2"; "[r]"; "j = 3"].

(** A file system given by a list of files. *)
Fixpoint files (l : list (string * string)) : string → option string :=
  λ p, match l with
       | [] => None
       | (name, content) :: l' =>
           if String.eqb p name then Some content else files l' p
       end.

(** A file that includes another one in the body of a section; the
    included file declares a section that inherits the outer one. *)
Definition main_and_included : string → option string :=
  files [("main.cfg", text ["[m]"; "k = 1"; "#include <inc.cfg>"; "j = 2"]);
         ("inc.cfg", text ["[i] : m"; "x = 9"; EmptyString])].

(** ** Texts of the configuration language *)

Definition is_blank (c : ascii) : bool :=
  Ascii.eqb c " "%char || Ascii.eqb c "009"%char.

(** A text without its spaces and tabs. *)
Fixpoint remove_blanks (s : string) : string :=
  match s with
  | EmptyString => EmptyString
  | String c s' =>
      if is_blank c then remove_blanks s' else String c (remove_blanks s')
  end.

(** A bare key as it may be typed: plain characters, spaces and tabs. *)
Definition key_text_ok (s : string) : bool :=
  forallb (λ c, plain c || is_blank c) (chars s).

(** A bare value as it may be typed: plain characters, commas, spaces and
    tabs. *)
Definition value_text_ok (s : string) : bool :=
  forallb (λ c, plain c || Ascii.eqb c ","%char || is_blank c) (chars s).

(** The escape sequences of a quoted value, written for the three
    characters that cannot stand for themselves between the quotes: the
    backslash, the double quote and the newline. *)
Fixpoint escape (s : string) : string :=
  match s with
  | EmptyString => EmptyString
  | String c s' =>
      if Ascii.eqb c ch_backslash then
        String ch_backslash (String ch_backslash (escape s'))
      else if Ascii.eqb c ch_quote then
        String ch_backslash (String ch_quote (escape s'))
      else if Ascii.eqb c ch_newline then
        String ch_backslash (String "n"%char (escape s'))
      else String c (escape s')
  end.

(** The locals at the start of a line in the body of the section [name]. *)
Definition at_line_start (name pf ps : string) (ln pos : N) : Locals :=
  mkLocals name EmptyString EmptyString EmptyString EmptyString pf ps
    (Some name) NEW_LINE ln pos true.

(** ** Flushes without a current section, and includes *)

(** The second half of C8 read without a condition on [section_ptr]: every
    flush of a name that is not a section sends a message. *)
Definition flush_as_stated : Prop :=
  ∀ L G, inheritance L ≠ EmptyString →
    _section_data G !! inheritance L = None →
    ∃ m, _msg_functor (PushInheritance L G).2 = received m (_msg_functor G).

(** The locals when a base has been read and no section is current (the
    header named a section that exists, or was not closed). *)
Definition pending_without_section : Locals :=
  with_inheritance "nosuch" (with_parse_action INHERITANCE initial_locals).

(** C9 read to the letter: the bracket that closes an include leaves every
    local as it was. *)
Definition include_as_stated : Prop :=
  ∀ fs fuel next L G L' G',
    parse_action L = INCLUDE →
    dispatch (load fs fuel) ">"%char next L G = Continue L' G' → L' = L.

(** A traversal whose saved text can be included into the document [D]:
    its sections are new and pairwise distinct, every base is a section of
    [D], the section itself or a section visited before, and names and
    values are as [save] can write them. *)
Definition includable (D : gmap string SectionData) (t : Traversal) : Prop :=
  NoDup t.*1.*1 ∧
  Forall (λ name, D !! name = None) t.*1.*1 ∧
  bases_first (map_to_list D).*1 t ∧
  Forall (λ e, section_ok e.1.1 e.1.2 ∧ e.2 ≡ₚ map_to_list (values e.1.2)) t.

#[global] Instance includable_dec D t : Decision (includable D t).
Proof. unfold includable. apply _. Defined.

(** The document after the sections of [t] have been added to [D]. *)
Definition add_sections (D : gmap string SectionData) (t : Traversal)
    : gmap string SectionData :=
  foldl (λ D e, <[e.1.1 := e.1.2]> D) D t.

(** The outer parse of [main.cfg] at the bracket that closes its include:
    the section [m] is current and holds [k], the argument is read. *)
Definition outer_at_include : Locals :=
  mkLocals "m" EmptyString EmptyString EmptyString EmptyString EmptyString
    "inc.cfg" (Some "m") INCLUDE 3 18 true.

Definition outer_document : CFGParser :=
  with_current_file "main.cfg"
    (document (<["m" := mkSection [] [] {["k" := "1"]}]> ∅)).

(** What [inc.cfg] holds, as a traversal: its text is what [save] writes. *)
Definition included_traversal : Traversal :=
  [("i", mkSection ["m"] [] {["x" := "9"]}, [("x", "9")])].

(** * Properties *)

(** ** Value resolution *)

Lemma string_empty_spec s : string_empty s = true ↔ s = EmptyString.
Proof. destruct s; simpl; split; congruence. Qed.

Lemma getValueFromInheritance_loop_first D bases k :
  getValueFromInheritance_loop D bases k =
  default EmptyString (first_base_value D bases k).
Proof.
  induction bases as [|b bases IH]; [done|].
  simpl. unfold defines.
  destruct (D !! b) as [s|]; simpl; [|done].
  by destruct (values s !! k).
Qed.

Lemma first_base_value_at D bases k i b v :
  bases !! i = Some b → defines D b k = Some v →
  (∀ j b', (j < i)%nat → bases !! j = Some b' → defines D b' k = None) →
  first_base_value D bases k = Some v.
Proof.
  revert i. induction bases as [|b0 bases IH]; intros i Hi Hv Hbefore; [done|].
  destruct i as [|i]; simpl in *.
  - injection Hi as ->. by rewrite Hv.
  - rewrite (Hbefore 0%nat b0) by (done || lia).
    apply (IH i); [done..|].
    intros j b' Hj Hb'. apply (Hbefore (S j)); [lia|done].
Qed.

Lemma first_base_value_none D bases k :
  (∀ b, b ∈ bases → defines D b k = None) →
  first_base_value D bases k = None.
Proof.
  induction bases as [|b bases IH]; intros Hnone; [done|].
  simpl. rewrite Hnone by left. apply IH. intros b' Hb'. apply Hnone. by right.
Qed.

Lemma first_base_value_ext D D' bases k :
  (∀ b, b ∈ bases → values <$> D' !! b = values <$> D !! b) →
  first_base_value D' bases k = first_base_value D bases k.
Proof.
  induction bases as [|b bases IH]; intros Hsame; [done|].
  simpl. rewrite IH by (intros b' Hb'; apply Hsame; by right).
  assert (defines D' b k = defines D b k) as ->; [|done].
  unfold defines. specialize (Hsame b (list_elem_of_here _ _)).
  destruct (D' !! b), (D !! b); simpl in *; congruence.
Qed.

(** C1, as the code has it.  [getString] returns the section's own value for
    the key when there is one; otherwise it takes the first base section, in
    declared order, that defines the key, and returns that value when it is
    not empty and the default when it is empty (later bases are not tried);
    it returns the default when no base defines the key, and when the
    section does not exist.  Only the values of the bases named by the
    section itself are read: a document that agrees on the section and on
    those values gives the same answer, whatever the bases inherit. *)
Theorem getString_resolution (G : CFGParser) (sec k d : string) :
  let D := _section_data G in
  (D !! sec = None → getString G sec k d = d) ∧
  (∀ s v, D !! sec = Some s → values s !! k = Some v →
     getString G sec k d = v) ∧
  (∀ s i b v, D !! sec = Some s → values s !! k = None →
     inheritances s !! i = Some b → defines D b k = Some v →
     (∀ j b', (j < i)%nat → inheritances s !! j = Some b' →
        defines D b' k = None) →
     getString G sec k d = if string_empty v then d else v) ∧
  (∀ s, D !! sec = Some s → values s !! k = None →
     (∀ b, b ∈ inheritances s → defines D b k = None) →
     getString G sec k d = d) ∧
  (∀ G' s, D !! sec = Some s → _section_data G' !! sec = Some s →
     (∀ b, b ∈ inheritances s →
        values <$> _section_data G' !! b = values <$> D !! b) →
     getString G' sec k d = getString G sec k d).
Proof.
  intros D. unfold getString, getValueFromInheritance. fold D.
  repeat split.
  - by intros ->.
  - by intros s v -> ->.
  - intros s i b v -> -> Hi Hv Hbefore.
    rewrite getValueFromInheritance_loop_first.
    by rewrite (first_base_value_at D _ k i b v).
  - intros s -> -> Hnone.
    rewrite getValueFromInheritance_loop_first.
    by rewrite first_base_value_none.
  - intros G' s -> -> Hsame.
    rewrite !getValueFromInheritance_loop_first.
    by rewrite (first_base_value_ext D).
Qed.

Lemma getString_resolution_witness :
  getString doc_parent_child "c" "k" "none" = "5".
Proof.
  destruct (getString_resolution doc_parent_child "c" "k" "none")
    as (_ & _ & Hbase & _).
  apply (Hbase (mkSection ["p"] [] ∅) 0%nat "p" "5");
    [reflexivity | reflexivity | reflexivity | reflexivity |].
  intros j b' Hj. lia.
Defined.

(** The specification's reading of [getString] fails when the first base
    that defines the key holds an empty value: the specification gives that
    (empty) value, the code gives the default. *)
Lemma getString_spec_fails :
  getString doc_empty_base "A" "k" "d" = "d" ∧
  getString_spec doc_empty_base "A" "k" "d" = EmptyString ∧
  ¬ (∀ G sec k d, getString G sec k d = getString_spec G sec k d).
Proof.
  assert (getString doc_empty_base "A" "k" "d" = "d") as Hcode by reflexivity.
  assert (getString_spec doc_empty_base "A" "k" "d" = EmptyString) as Hspec
    by reflexivity.
  split; [done|]. split; [done|].
  intros Hall. specialize (Hall doc_empty_base "A" "k" "d").
  rewrite Hcode, Hspec in Hall. discriminate.
Qed.

(** ** White space *)

Lemma msg_section_data m L G : _section_data (msg m L G) = _section_data G.
Proof. done. Qed.

Lemma msg_functor m L G :
  _msg_functor (msg m L G) = received (GetErrorLineString L +:+ m) (_msg_functor G).
Proof. done. Qed.



(** ** [set] *)

Lemma lookup_update_section p f G name :
  _section_data (update_section p f G) !! name =
  if decide (p = name) then f <$> _section_data G !! name
  else _section_data G !! name.
Proof.
  unfold update_section. simpl. rewrite lookup_alter.
  case_decide; [subst|]; by rewrite ?decide_True, ?decide_False by done.
Qed.

Lemma dom_update_section p f G :
  dom (_section_data (update_section p f G)) = dom (_section_data G).
Proof. apply dom_alter_L. Qed.

#[local] Arguments update_section : simpl never.

(** C10.  [set] overwrites the value of a key that exists and does nothing
    else: when the section is absent, or the key is absent from it, the
    document is unchanged and one message is sent; in every case the
    sections of the document and the keys, inheritances and attributes of
    each section are those from before. *)
Theorem set_only_overwrites {T : Type} (to_string : T → string)
    (G : CFGParser) (sec k : string) (v : T) :
  let G' := set to_string G sec k v in
  (stored G sec k = None →
   _section_data G' = _section_data G ∧
   ∃ m, _msg_functor G' = received m (_msg_functor G)) ∧
  (is_Some (stored G sec k) →
   stored G' sec k = Some (to_string v) ∧ _msg_functor G' = _msg_functor G) ∧
  dom (_section_data G') = dom (_section_data G) ∧
  (∀ name s, _section_data G !! name = Some s →
     ∃ s', _section_data G' !! name = Some s' ∧
           dom (values s') = dom (values s) ∧
           inheritances s' = inheritances s ∧ attributes s' = attributes s ∧
           ∀ k', (name, k') ≠ (sec, k) → values s' !! k' = values s !! k').
Proof.
  intros G'. subst G'. unfold stored, set.
  destruct (_section_data G !! sec) as [s|] eqn:Hsec.
  - cbn [mbind option_bind].
    destruct (values s !! k) as [old|] eqn:Hk.
    + split; [done|]. split.
      { intros _. rewrite lookup_update_section, decide_True by done.
        rewrite Hsec. simpl. by rewrite lookup_insert_eq. }
      split; [apply dom_update_section|].
      intros name s0 Hname. rewrite lookup_update_section.
      case_decide as Heq.
      * subst name. rewrite Hname. simpl. eexists. split; [done|].
        assert (s0 = s) as -> by congruence. simpl.
        split; [|split; [done|split; [done|]]].
        { apply dom_insert_lookup_L. eauto. }
        intros k' Hne. rewrite lookup_insert_ne; [done|]. congruence.
      * eauto 10.
    + split; [eauto|]. split; [by intros []|]. split; [done|eauto 10].
  - cbn [mbind option_bind].
    split; [eauto|]. split; [by intros []|]. split; [done|eauto 10].
Qed.

Lemma set_only_overwrites_witness :
  _section_data (set (λ n : N, pretty n) doc_parent_child "c" "k" 7) =
  _section_data doc_parent_child.
Proof.
  destruct (set_only_overwrites (λ n : N, pretty n) doc_parent_child "c" "k" 7)
    as (Habsent & _).
  apply Habsent. reflexivity.
Defined.

(** ** Redeclared keys *)

(** The commit at the end of a line in Value assigns [values[key]]
    whatever the map holds. *)
Lemma newline_commits_value L G p s :
  parse_action L = VALUE → section_ptr L = Some p →
  _section_data G !! p = Some s →
  ∃ L' G', case_newline L G = Continue L' G' ∧
           stored G' p (key L) = Some (value L).
Proof.
  intros Hact Hptr Hp. unfold case_newline, newline_flush.
  rewrite Hact, Hptr. do 2 eexists. split; [reflexivity|].
  unfold stored. rewrite lookup_update_section, decide_True by done.
  rewrite Hp. simpl. apply lookup_insert_eq.
Qed.

(** C3 fails on the code.  The second declaration of a key is reported when
    its [=] is read, and stored all the same when the line ends (see
    [newline_commits_value]), so the later value replaces the first. *)
Theorem redeclared_key_overwrites :
  ∃ G, parse ["[s]"; "k=1"; "k=2"] = Some G ∧
       stored G "s" "k" = Some "2" ∧
       _msg_functor G =
         Some ["Error at line '3', character at '2' : Section " +:+
               quoted "s" +:+ " key " +:+ quoted "k" +:+ " already exist."].
Proof.
  eexists. split; [vm_compute; reflexivity|]. split; reflexivity.
Qed.

(** ** Short arrays *)

(** C4 fails on the code.  [getVec2], [getVec3] and [getVec4] test the array
    for emptiness only, so an array of one, two or three numbers is indexed
    past its end instead of giving the default. *)
Theorem getVec_short_array_out_of_bounds :
  ∃ G, parse short_arrays = Some G ∧
       getArray stoi G "s" "one" = Returned [1%Z] ∧
       getVec2 stoi G "s" "one" (mkVec2 7%Z 8%Z) = OutOfBounds ∧
       getArray stoi G "s" "two" = Returned [1%Z; 2%Z] ∧
       getVec3 stoi G "s" "two" (mkVec3 7%Z 8%Z 9%Z) = OutOfBounds ∧
       getVec4 stoi G "s" "three" (mkVec4 6%Z 7%Z 8%Z 9%Z) = OutOfBounds ∧
       getVec2 stoi G "s" "none" (mkVec2 7%Z 8%Z) =
         Returned (mkVec2 7%Z 8%Z, notify (cannot_find "s" "none") G).
Proof.
  eexists. split; [vm_compute; reflexivity|].
  repeat split; vm_compute; reflexivity.
Qed.

(** ** Comments *)

Lemma bar_in_comment L G :
  parse_action L = COMMENT →
  case_comment_multiline "|"%char L G =
    Continue (with_parse_action MULTILINE_COMMENT L) G.
Proof. intros Hact. unfold case_comment_multiline. by rewrite Hact. Qed.

(** C5 fails on the code.  A [|] inside a line comment is not discarded: it
    switches from Comment to MultilineComment (see [bar_in_comment]), which
    the newline does not end, so the lines that follow are swallowed.
    Without the [|] the same lines declare a section and a key. *)
Theorem bar_in_comment_opens_block :
  (∃ G, parse [";a|b"; "[s]"; "k=1"] = Some G ∧ _section_data G = ∅) ∧
  (∃ G, parse [";ab"; "[s]"; "k=1"] = Some G ∧ stored G "s" "k" = Some "1").
Proof.
  split; eexists; (split; [vm_compute; reflexivity|reflexivity]).
Qed.

(** ** Duplicate sections *)

(** C6 fails on the code.  The duplicate header is reported and the first
    declaration is left as it was ([declared_section_is_kept] below shows it
    in general), and the keys of the duplicate body are dropped; but the
    attributes and bases of the duplicate header are not discarded: with no
    section to attach them to, [PushAttribute] and [PushInheritance] keep
    their buffers, and the next header receives what is left in them, glued
    to its own first attribute or as an entry of its own. *)
Theorem duplicate_attribute_leaks :
  (∃ G, parse duplicate_then_other = Some G ∧
        (hasKey G "X" "k").1 = true ∧ (hasKey G "X" "j").1 = false ∧
        stored G "X" "k" = Some "1" ∧
        getAttributes G "X" = ([], G) ∧
        getAttributes G "Y" = (["ab"], G) ∧
        _msg_functor G =
          Some ["Error at line '3', character at '3' : Section " +:+
                quoted "X" +:+ " already exist."]) ∧
  (∃ G, parse duplicate_then_empty_lists = Some G ∧
        (hasKey G "X" "j").1 = false ∧
        getInheritances G "X" = ([], G) ∧
        getAttributes G "X" = ([], G) ∧
        getInheritances G "Y" = (["B"], G) ∧
        getAttributes G "Y" = (["a"], G)).
Proof.
  split; (eexists; split; [vm_compute; reflexivity|]);
    repeat split; vm_compute; reflexivity.
Qed.

(** ** The shape of the loop *)

(** The switch runs one of its fifteen cases. *)
Lemma dispatch_cases (P : Outcome → Prop) load c next L G :
  P (case_comment_character c L G) → P (case_comment_multiline c L G) →
  P (case_space c L G) → P (case_backslash next L G) → P (case_quote L G) →
  P (case_hash c L G) → P (case_newline L G) → P (case_less c L G) →
  P (case_greater load c L G) → P (case_open_bracket c L G) →
  P (case_close_bracket c L G) → P (case_comma c L G) →
  P (case_colon c L G) → P (case_equals c L G) → P (case_default c L G) →
  P (dispatch load c next L G).
Proof.
  intros. destruct c as [[] [] [] [] [] [] [] []]; assumption.
Qed.

Lemma scan_nil load L G :
  scan load [] L G =
  match dispatch load ch_newline None L G with
  | Continue L' G' | ContinueAfterGet L' G' => Some (incr_character_pos L', G')
  | NoReturn => None
  end.
Proof. done. Qed.

Lemma scan_cons load c rest L G :
  scan load (c :: rest) L G =
  match dispatch load c (head rest) L G with
  | Continue L' G' => scan load rest (incr_character_pos L') G'
  | ContinueAfterGet L' G' =>
      match rest with
      | [] => Some (incr_character_pos L', G')
      | _ :: rest' => scan load rest' (incr_character_pos L') G'
      end
  | NoReturn => None
  end.
Proof. done. Qed.

(** A property kept by every iteration holds when the loop ends. *)
Lemma scan_preserves (I : Locals → CFGParser → Prop) load :
  (∀ c next L G, I L G →
     after (λ L' G', I (incr_character_pos L') G') (dispatch load c next L G)) →
  ∀ cs L G L' G', I L G → scan load cs L G = Some (L', G') → I L' G'.
Proof.
  intros Hstep cs.
  remember (length cs) as n eqn:Hn.
  assert (length cs ≤ n)%nat as Hlen by lia. clear Hn.
  revert cs Hlen. induction n as [|n IH]; intros cs Hlen L G L' G' HI Hscan.
  - destruct cs; [|simpl in Hlen; lia]. rewrite scan_nil in Hscan.
    specialize (Hstep ch_newline None L G HI).
    destruct (dispatch _ _ _ L G); simpl in Hstep; by simplify_eq.
  - destruct cs as [|c rest]; [rewrite scan_nil in Hscan|rewrite scan_cons in Hscan].
    + specialize (Hstep ch_newline None L G HI).
      destruct (dispatch _ _ _ L G); simpl in Hstep; by simplify_eq.
    + specialize (Hstep c (head rest) L G HI). simpl in Hlen.
      destruct (dispatch _ _ _ L G) as [L1 G1|L1 G1|]; simpl in Hstep; [| |done].
      * apply (IH rest) in Hscan; [done|lia|done].
      * destruct rest as [|c' rest']; [by simplify_eq|].
        simpl in Hlen. apply (IH rest') in Hscan; [done|lia|done].
Qed.

(** ** Inheritance lists name existing sections *)

Lemma closed_alter_same (f : SectionData → SectionData) p D :
  (∀ s, inheritances (f s) = inheritances s) →
  inheritances_closed D → inheritances_closed (alter f p D).
Proof.
  intros Hf HD name s b Hname Hb.
  rewrite lookup_alter_is_Some.
  rewrite lookup_alter in Hname. case_decide; simplify_eq.
  - destruct (D !! name) as [s0|] eqn:Hs0; simplify_eq/=.
    rewrite Hf in Hb. eauto.
  - eauto.
Qed.

Lemma closed_alter_push x p D :
  is_Some (D !! x) →
  inheritances_closed D → inheritances_closed (alter (push_inheritance x) p D).
Proof.
  intros Hx HD name s b Hname Hb.
  rewrite lookup_alter_is_Some.
  rewrite lookup_alter in Hname. case_decide; simplify_eq.
  - destruct (D !! name) as [s0|] eqn:Hs0; simplify_eq/=.
    apply elem_of_app in Hb as [Hb|Hb]; [eauto|].
    by apply list_elem_of_singleton in Hb as ->.
  - eauto.
Qed.

Lemma closed_insert_empty name D :
  inheritances_closed D → inheritances_closed (<[name := empty_section]> D).
Proof.
  intros HD name' s b Hname Hb.
  rewrite lookup_insert_is_Some.
  rewrite lookup_insert in Hname. case_decide; simplify_eq/=.
  - by apply elem_of_nil in Hb.
  - destruct (decide (name = b)); [by left|right]. eauto.
Qed.

Lemma closed_PushInheritance L G :
  inheritances_closed (_section_data G) →
  inheritances_closed (_section_data (PushInheritance L G).2).
Proof.
  intros HG. unfold PushInheritance.
  destruct (section_ptr L) as [p|]; [|done].
  destruct (string_empty (inheritance L)); [done|]. simpl.
  destruct (_section_data G !! inheritance L) eqn:Hbase; [|done].
  apply closed_alter_push; [by rewrite Hbase|done].
Qed.

Lemma closed_PushAttribute L G :
  inheritances_closed (_section_data G) →
  inheritances_closed (_section_data (PushAttribute L G).2).
Proof.
  intros HG. unfold PushAttribute.
  destruct (section_ptr L) as [p|]; [|done].
  destruct (string_empty (attribute L)); [done|].
  by apply closed_alter_same.
Qed.

Lemma closed_newline_flush L G :
  inheritances_closed (_section_data G) →
  inheritances_closed (_section_data (newline_flush L G).2).
Proof.
  intros HG. unfold newline_flush.
  destruct (parse_action L); try done.
  - by apply closed_PushInheritance.
  - by apply closed_PushAttribute.
  - destruct (section_ptr L); [by apply closed_alter_same|done].
  - destruct (section_ptr L); [by apply closed_alter_same|done].
Qed.

Lemma closed_register_key L G :
  inheritances_closed (_section_data G) →
  inheritances_closed (_section_data (register_key L G)).
Proof.
  intros HG. unfold register_key.
  destruct (section_ptr L) as [p|]; [|done].
  destruct (_section_data G !! p) as [s|]; [|done].
  destruct (values s !! key L); [done|]. by apply closed_alter_same.
Qed.

(** One iteration keeps the lists closed, if the nested load does. *)
Lemma closed_dispatch (load : string → CFGParser → option CFGParser) c next L G :
  (∀ path G0 G1, inheritances_closed (_section_data G0) →
     load path G0 = Some G1 → inheritances_closed (_section_data G1)) →
  inheritances_closed (_section_data G) →
  after (λ _ G', inheritances_closed (_section_data G'))
    (dispatch load c next L G).
Proof.
  intros Hload HG. apply dispatch_cases.
  - unfold case_comment_character. by destruct (parse_action L).
  - unfold case_comment_multiline. by destruct (parse_action L).
  - unfold case_space.
    by destruct (parse_action L), (ignore_current_spaces L).
  - unfold case_backslash. destruct (parse_action L); try done.
    destruct next as [[[] [] [] [] [] [] [] []]|]; done.
  - unfold case_quote. by destruct (parse_action L).
  - unfold case_hash. by destruct (parse_action L).
  - unfold case_newline.
    pose proof (closed_newline_flush L G HG).
    by destruct (newline_flush L G).
  - unfold case_less. by destruct (parse_action L).
  - unfold case_greater, IncludeFile. destruct (parse_action L); try done.
    destruct (load _ G) as [G1|] eqn:Hrec; [|done]. simpl. eauto.
  - unfold case_open_bracket. by destruct (parse_action L).
  - unfold case_close_bracket. destruct (parse_action L); try done.
    destruct (_section_data G !! section L); [done|].
    by apply closed_insert_empty.
  - unfold case_comma.
    pose proof (closed_PushInheritance L G HG).
    pose proof (closed_PushAttribute L G HG).
    destruct (parse_action L), (PushInheritance L G), (PushAttribute L G); done.
  - unfold case_colon. by destruct (parse_action L).
  - unfold case_equals.
    pose proof (closed_PushInheritance L G HG).
    pose proof (closed_register_key L G HG).
    destruct (parse_action L), (PushInheritance L G); done.
  - unfold case_default. by destruct (parse_action L).
Qed.

Lemma closed_load fs fuel path G G' :
  inheritances_closed (_section_data G) →
  load fs fuel path G = Some G' → inheritances_closed (_section_data G').
Proof.
  revert path G G'. induction fuel as [|fuel IH]; intros path G G' HG Hload; [done|].
  simpl in Hload. destruct (fs path) as [content|]; [|by simplify_eq].
  destruct (scan _ _ _ _) as [[L1 G1]|] eqn:Hscan; simplify_eq/=.
  eapply (scan_preserves (λ _ G0, inheritances_closed (_section_data G0)));
    [| |exact Hscan]; [|exact HG].
  intros c next L G0 HG0.
  pose proof (closed_dispatch (load fs fuel) c next L G0 IH HG0) as Hstep.
  by destruct (dispatch _ _ _ L G0).
Qed.

Lemma closed_parse lines G :
  parse lines = Some G → inheritances_closed (_section_data G).
Proof.
  unfold parse. apply closed_load.
  intros name s b Hname. simpl in Hname. by rewrite lookup_empty in Hname.
Qed.

(** C8, as the code has it.  A parse keeps every inheritance list within
    the names of the document: each iteration of the loop does (so the
    property holds at every point of the parse), and so does a whole
    [load], nested includes included; it holds of a new parser, hence of
    whatever a new parser loads.  A reference flushed while a section is
    current and its target does not exist is not stored: the document is as
    before, the buffer is cleared and the message is sent.  While no
    section is current a flush stores nothing and sends nothing.  The parse
    of the example, where the target is declared on a later line, returns
    with the reference dropped. *)
Theorem inheritances_stay_closed (fs : string → option string) (fuel : nat) :
  (∀ c next L G, inheritances_closed (_section_data G) →
     after (λ _ G', inheritances_closed (_section_data G'))
       (dispatch (load fs fuel) c next L G)) ∧
  (∀ path G G', inheritances_closed (_section_data G) →
     load fs fuel path G = Some G' → inheritances_closed (_section_data G')) ∧
  (∀ path G', load fs fuel path new_parser = Some G' →
     inheritances_closed (_section_data G')) ∧
  (∀ L G p, section_ptr L = Some p → inheritance L ≠ EmptyString →
     _section_data G !! inheritance L = None →
     ∃ G', PushInheritance L G = (with_inheritance EmptyString L, G') ∧
           _section_data G' = _section_data G ∧
           _msg_functor G' =
             received (GetErrorLineString L +:+ "Inherited section " +:+
                       quoted (inheritance L) +:+ " is not exist!")
               (_msg_functor G)) ∧
  (∀ L G, section_ptr L = None → (PushInheritance L G).2 = G) ∧
  (∃ G, parse forward_reference = Some G ∧
        inheritances_closed (_section_data G) ∧
        (inheritances <$> _section_data G !! "a") = Some [] ∧
        hasSection G "b" = true ∧
        _msg_functor G =
          Some ["Error at line '1', character at '7' : Inherited section " +:+
                quoted "b" +:+ " is not exist!"]).
Proof.
  split; [|split; [|split; [|split; [|split]]]].
  - intros c next L G HG. apply closed_dispatch; [|done].
    intros path G0 G1. apply closed_load.
  - intros path G G'. apply closed_load.
  - intros path G'. apply closed_load.
    intros name s b Hname. simpl in Hname. by rewrite lookup_empty in Hname.
  - intros L G p Hptr Hne Hbase. unfold PushInheritance.
    rewrite Hptr, Hbase.
    destruct (string_empty (inheritance L)) eqn:Hempty.
    { by apply string_empty_spec in Hempty. }
    eexists. split; [reflexivity|].
    split; [apply msg_section_data|apply msg_functor].
  - intros L G Hptr. unfold PushInheritance. by rewrite Hptr.
  - assert (∃ G, parse forward_reference = Some G ∧
              (inheritances <$> _section_data G !! "a") = Some [] ∧
              hasSection G "b" = true ∧
              _msg_functor G =
                Some ["Error at line '1', character at '7' : Inherited section "
                      +:+ quoted "b" +:+ " is not exist!"])
      as (G & Hparse & Hrest).
    { eexists. split; [vm_compute; reflexivity|].
      repeat split; vm_compute; reflexivity. }
    exists G. split; [done|]. split; [|done].
    by apply (closed_parse forward_reference).
Qed.

Lemma inheritances_stay_closed_witness :
  ∃ G', PushInheritance
          (with_section_ptr (Some "a")
             (with_inheritance "b" initial_locals)) new_parser =
          (with_section_ptr (Some "a") initial_locals, G') ∧
        _section_data G' = ∅ ∧
        _msg_functor G' =
          Some ["Error at line '1', character at '0' : Inherited section " +:+
                quoted "b" +:+ " is not exist!"].
Proof.
  destruct (inheritances_stay_closed (λ _, None) 0)
    as (_ & _ & _ & Hflush & _).
  apply (Hflush (with_section_ptr (Some "a")
                   (with_inheritance "b" initial_locals)) new_parser "a");
    [reflexivity|discriminate|reflexivity].
Defined.

(** C8 without its condition fails.  While no section is current (the
    header repeated a name, or was not closed), a flush of a base that does
    not exist sends nothing and keeps the buffer; the text can later be
    stored in another section, once a section of that name exists. *)
Lemma flush_without_section_is_silent :
  PushInheritance pending_without_section new_parser =
    (pending_without_section, new_parser) ∧
  (∃ G, parse ["[X]"; "[X] : nosuch"] = Some G ∧
        _msg_functor G =
          Some ["Error at line '2', character at '3' : Section " +:+
                quoted "X" +:+ " already exist."]) ∧
  (∃ G, parse ["[X]"; "[X] : Y"; "[Y] : "] = Some G ∧
        getInheritances G "Y" = (["Y"], G) ∧
        _msg_functor G =
          Some ["Error at line '2', character at '3' : Section " +:+
                quoted "X" +:+ " already exist."]) ∧
  ¬ flush_as_stated.
Proof.
  split; [reflexivity|]. split; [|split].
  - eexists. split; [vm_compute; reflexivity|]. reflexivity.
  - eexists. split; [vm_compute; reflexivity|].
    split; vm_compute; reflexivity.
  - intros Hstated.
    destruct (Hstated pending_without_section new_parser) as [m Hm];
      [discriminate|reflexivity|].
    discriminate Hm.
Qed.

(** ** A section that is no longer the current one does not change *)

Lemma frozen_update X sX p f G :
  _section_data G !! X = Some sX → p ≠ X →
  _section_data (update_section p f G) !! X = Some sX.
Proof. intros HX Hp. by rewrite lookup_update_section, decide_False. Qed.

Lemma frozen_PushInheritance X sX L G :
  frozen X sX L G →
  frozen X sX (PushInheritance L G).1 (PushInheritance L G).2.
Proof.
  intros [HX Hptr]. unfold PushInheritance.
  destruct (section_ptr L) as [p|] eqn:Hp;
    [|by split; [|simpl; rewrite Hp]].
  destruct (string_empty (inheritance L));
    [by split; [|simpl; rewrite Hp]|].
  split; [|by simpl; rewrite Hp]. simpl.
  destruct (_section_data G !! inheritance L); [|done].
  apply frozen_update; [done|congruence].
Qed.

Lemma frozen_PushAttribute X sX L G :
  frozen X sX L G →
  frozen X sX (PushAttribute L G).1 (PushAttribute L G).2.
Proof.
  intros [HX Hptr]. unfold PushAttribute.
  destruct (section_ptr L) as [p|] eqn:Hp;
    [|by split; [|simpl; rewrite Hp]].
  destruct (string_empty (attribute L));
    [by split; [|simpl; rewrite Hp]|].
  split; [|by simpl; rewrite Hp]. simpl.
  apply frozen_update; [done|congruence].
Qed.

Lemma frozen_newline_flush X sX L G :
  frozen X sX L G →
  frozen X sX (newline_flush L G).1 (newline_flush L G).2.
Proof.
  intros HXL. pose proof HXL as [HX Hptr]. unfold newline_flush.
  destruct (parse_action L); try done;
    try (by apply frozen_PushInheritance);
    try (by apply frozen_PushAttribute);
    (split; [|done]); simpl;
    (destruct (section_ptr L) as [p|] eqn:Hp; [|done]);
    (apply frozen_update; [done|congruence]).
Qed.

Lemma frozen_register_key X sX L G :
  frozen X sX L G → _section_data (register_key L G) !! X = Some sX.
Proof.
  intros [HX Hptr]. unfold register_key.
  destruct (section_ptr L) as [p|] eqn:Hp; [|done].
  destruct (_section_data G !! p) as [s|]; [|done].
  destruct (values s !! key L); [done|].
  apply frozen_update; [done|congruence].
Qed.

Lemma frozen_dispatch X sX (load : string → CFGParser → option CFGParser)
    c next L G :
  (∀ path G0 G1, _section_data G0 !! X = Some sX → load path G0 = Some G1 →
     _section_data G1 !! X = Some sX) →
  frozen X sX L G → after (frozen X sX) (dispatch load c next L G).
Proof.
  intros Hload HXL. pose proof HXL as [HX Hptr].
  assert (∀ L' G', _section_data G' !! X = Some sX →
            section_ptr L' = section_ptr L → frozen X sX L' G') as Hsame.
  { intros L' G' HX' Hptr'. split; [done|by rewrite Hptr']. }
  apply dispatch_cases.
  - unfold case_comment_character.
    destruct (parse_action L); by apply Hsame.
  - unfold case_comment_multiline.
    destruct (parse_action L); by apply Hsame.
  - unfold case_space.
    destruct (parse_action L), (ignore_current_spaces L);
      try destruct (String.eqb _ _); by apply Hsame.
  - unfold case_backslash. destruct (parse_action L); try by apply Hsame.
    destruct next as [[[] [] [] [] [] [] [] []]|]; by apply Hsame.
  - unfold case_quote. destruct (parse_action L); by apply Hsame.
  - unfold case_hash. destruct (parse_action L); by apply Hsame.
  - unfold case_newline.
    pose proof (frozen_newline_flush X sX L G HXL) as [HX1 Hptr1].
    destruct (newline_flush L G) as [L1 G1]. simpl in HX1, Hptr1.
    destruct (parse_action L1); by split.
  - unfold case_less. destruct (parse_action L); by apply Hsame.
  - unfold case_greater, IncludeFile.
    destruct (parse_action L); try by apply Hsame.
    destruct (load _ G) as [G1|] eqn:Hrec; [|done].
    apply Hsame; [|done]. simpl. eauto.
  - unfold case_open_bracket.
    destruct (parse_action L); try by apply Hsame. by split.
  - unfold case_close_bracket.
    destruct (parse_action L); try by apply Hsame.
    destruct (_section_data G !! section L) eqn:Hsec; [by apply Hsame|].
    assert (section L ≠ X) by congruence.
    split; simpl; [by rewrite lookup_insert_ne|congruence].
  - unfold case_comma.
    pose proof (frozen_PushInheritance X sX L G HXL).
    pose proof (frozen_PushAttribute X sX L G HXL).
    destruct (parse_action L), (PushInheritance L G), (PushAttribute L G);
      done || by apply Hsame.
  - unfold case_colon. destruct (parse_action L); by apply Hsame.
  - unfold case_equals.
    pose proof (frozen_PushInheritance X sX L G HXL) as [HX1 Hptr1].
    pose proof (frozen_register_key X sX L G HXL).
    destruct (parse_action L), (PushInheritance L G);
      (by apply Hsame) || by split.
  - unfold case_default. destruct (parse_action L); by apply Hsame.
Qed.

Lemma frozen_load fs X sX fuel path G G' :
  _section_data G !! X = Some sX → load fs fuel path G = Some G' →
  _section_data G' !! X = Some sX.
Proof.
  revert path G G'. induction fuel as [|fuel IH]; intros path G G' HX Hload; [done|].
  simpl in Hload. destruct (fs path) as [content|]; [|by simplify_eq].
  destruct (scan _ _ _ _) as [[L1 G1]|] eqn:Hscan; simplify_eq/=.
  eapply (scan_preserves (frozen X sX)); [| |exact Hscan]; [|by split].
  intros c next L G0 HG0.
  pose proof (frozen_dispatch X sX (load fs fuel) c next L G0 IH HG0) as Hstep.
  by destruct (dispatch _ _ _ L G0).
Qed.

(** The first declaration of a section is kept: once a section exists and
    [section_ptr] points elsewhere (after the header of a duplicate it is
    null), nothing the loop reads changes it, includes or not. *)
Lemma declared_section_is_kept fs fuel cs X sX L G L' G' :
  _section_data G !! X = Some sX → section_ptr L ≠ Some X →
  scan (load fs fuel) cs L G = Some (L', G') →
  _section_data G' !! X = Some sX.
Proof.
  intros HX Hptr Hscan.
  eapply (scan_preserves (frozen X sX)); [| |exact Hscan]; [|by split].
  intros c next L0 G0 HG0.
  pose proof (frozen_dispatch X sX (load fs fuel) c next L0 G0
                (frozen_load fs X sX fuel) HG0) as Hstep.
  by destruct (dispatch _ _ _ L0 G0).
Qed.

(** ** Reading back what [save] writes *)

Lemma dispatch_plain load c next L G :
  plain c = true → dispatch load c next L G = case_default c L G.
Proof.
  destruct c as [[] [] [] [] [] [] [] []]; intros Hc;
    (discriminate Hc || reflexivity).
Qed.

Lemma scan_continue load c rest L G L1 G1 :
  dispatch load c (head rest) L G = Continue L1 G1 →
  scan load (c :: rest) L G = scan load rest (incr_character_pos L1) G1.
Proof. intros Hstep. by rewrite scan_cons, Hstep. Qed.

Lemma append_nil_l s : EmptyString +:+ s = s.
Proof. done. Qed.

Lemma append_cons c s s' : String c s +:+ s' = String c (s +:+ s').
Proof. done. Qed.

Lemma chars_app s1 s2 : chars (s1 +:+ s2) = chars s1 ++ chars s2.
Proof.
  induction s1 as [|c s1 IH]; [done|].
  rewrite append_cons. unfold chars in *. simpl. by rewrite IH.
Qed.

Lemma chars_cons c s : chars (String c s) = c :: chars s.
Proof. done. Qed.

Lemma push_back_append s c s' : push_back s c +:+ s' = s +:+ String c s'.
Proof.
  unfold push_back. induction s as [|c0 s IH]; [done|].
  by rewrite !append_cons, IH.
Qed.

Lemma append_empty_r s : s +:+ EmptyString = s.
Proof. induction s as [|c s IH]; [done|]. by rewrite append_cons, IH. Qed.

Lemma plain_string_cons c s :
  plain_string (String c s) = true → plain c = true ∧ plain_string s = true.
Proof. unfold plain_string. simpl. by intros [??]%andb_prop. Qed.

Lemma value_ok_cons c s :
  value_ok (String c s) = true →
  (plain c = true ∨ c = ","%char) ∧ value_ok s = true.
Proof.
  unfold value_ok. simpl. intros [Hc ?]%andb_prop. split; [|done].
  apply orb_prop in Hc as [?|Hc]; [by left|right].
  by apply Ascii.eqb_eq in Hc.
Qed.

#[local] Arguments uint32_incr : simpl never.
#[local] Arguments scan : simpl never.

(** Brings the locals and the parser back to constructor form. *)
Ltac normalise :=
  unfold error, append_to_value, incr_character_pos, with_section,
    with_inheritance, with_attribute, with_key, with_value,
    with_preprocessor_first, with_preprocessor_second, with_section_ptr,
    with_parse_action, with_line, with_character_pos,
    with_ignore_current_spaces, update_section, with_section_data,
    with_current_file, push_inheritance, push_attribute, with_values;
  simpl.

Section ReadBack.

Variable load : string → CFGParser → option CFGParser.

(** A run of plain characters is appended to the buffer of the current
    action; only the character position moves besides. *)
Ltac accumulate name :=
  induction name as [|c name IH]; intros buf pos Hname;
  [ exists pos; by rewrite append_empty_r
  | apply plain_string_cons in Hname as [Hc Hname];
    rewrite chars_cons, <- app_comm_cons;
    erewrite scan_continue by (rewrite dispatch_plain by done; reflexivity);
    normalise;
    destruct (IH (push_back buf c) (uint32_incr pos) Hname) as [pos' ->];
    exists pos'; by rewrite push_back_append ].

Lemma scan_section_name name rest inh att k v pf ps ptr ln flag G :
  ∀ buf pos, plain_string name = true →
  ∃ pos',
    scan load (chars name ++ rest)
      (mkLocals buf inh att k v pf ps ptr SECTION ln pos flag) G =
    scan load rest
      (mkLocals (buf +:+ name) inh att k v pf ps ptr SECTION ln pos' flag) G.
Proof. accumulate name. Qed.

Lemma scan_inheritance_name name rest sec att k v pf ps ptr ln flag G :
  ∀ buf pos, plain_string name = true →
  ∃ pos',
    scan load (chars name ++ rest)
      (mkLocals sec buf att k v pf ps ptr INHERITANCE ln pos flag) G =
    scan load rest
      (mkLocals sec (buf +:+ name) att k v pf ps ptr INHERITANCE ln pos' flag) G.
Proof. accumulate name. Qed.

Lemma scan_attribute_name name rest sec inh k v pf ps ptr ln flag G :
  ∀ buf pos, plain_string name = true →
  ∃ pos',
    scan load (chars name ++ rest)
      (mkLocals sec inh buf k v pf ps ptr ATTRIBUTE ln pos flag) G =
    scan load rest
      (mkLocals sec inh (buf +:+ name) k v pf ps ptr ATTRIBUTE ln pos' flag) G.
Proof. accumulate name. Qed.

Lemma scan_key_name name rest sec inh att v pf ps ptr ln flag G :
  ∀ buf pos, plain_string name = true →
  ∃ pos',
    scan load (chars name ++ rest)
      (mkLocals sec inh att buf v pf ps ptr KEY ln pos flag) G =
    scan load rest
      (mkLocals sec inh att (buf +:+ name) v pf ps ptr KEY ln pos' flag) G.
Proof. accumulate name. Qed.

(** A value is appended to the value buffer; its first comma turns Value
    into ValueArray. *)
Lemma scan_value_text val rest sec inh att k pf ps ptr ln flag G :
  ∀ buf pos act, act = VALUE ∨ act = VALUE_ARRAY → value_ok val = true →
  ∃ pos' act', (act' = VALUE ∨ act' = VALUE_ARRAY) ∧
    scan load (chars val ++ rest)
      (mkLocals sec inh att k buf pf ps ptr act ln pos flag) G =
    scan load rest
      (mkLocals sec inh att k (buf +:+ val) pf ps ptr act' ln pos' flag) G.
Proof.
  induction val as [|c val IH]; intros buf pos act Hact Hval.
  { exists pos, act. by rewrite append_empty_r. }
  apply value_ok_cons in Hval as [Hc Hval]. rewrite chars_cons, <- app_comm_cons.
  destruct Hc as [Hc | ->].
  - erewrite scan_continue
      by (rewrite dispatch_plain by done; destruct Hact as [-> | ->];
          reflexivity).
    normalise.
    destruct (IH (push_back buf c) (uint32_incr pos) act Hact Hval)
      as (pos' & act' & Hact' & ->).
    exists pos', act'. by rewrite push_back_append.
  - erewrite scan_continue by (destruct Hact as [-> | ->]; reflexivity).
    normalise.
    destruct (IH (push_back buf ","%char) (uint32_incr pos) VALUE_ARRAY
                (or_intror eq_refl) Hval) as (pos' & act' & Hact' & ->).
    exists pos', act'. by rewrite push_back_append.
Qed.


(** Runs the switch on the next character, the locals being explicit. *)
Ltac step :=
  rewrite scan_cons; unfold ch_newline; cbn [dispatch];
  unfold case_comment_character, case_comment_multiline, case_space,
    case_quote, case_hash, case_newline, case_less, case_open_bracket,
    case_close_bracket, case_comma, case_colon, case_equals, case_default,
    newline_flush, PushInheritance, PushAttribute, register_key;
  normalise.

(** [[name]] for a name that is new. *)
Lemma scan_header name rest sec pf ps ptr ln pos D mf cf bp :
  plain_string name = true → D !! name = None →
  ∃ pos',
    scan load ("["%char :: chars name ++ "]"%char :: rest)
      (mkLocals sec EmptyString EmptyString EmptyString EmptyString pf ps
         ptr NEW_LINE ln pos true)
      (mkParser D mf cf bp) =
    scan load rest
      (mkLocals name EmptyString EmptyString EmptyString EmptyString pf ps
         (Some name) SECTION ln pos' true)
      (mkParser (<[name := empty_section]> D) mf cf bp).
Proof.
  intros Hname Hnew. step.
  destruct (scan_section_name name ("]"%char :: rest) EmptyString
              EmptyString EmptyString EmptyString pf ps None ln false
              (mkParser D mf cf bp) EmptyString (uint32_incr pos) Hname)
    as [pos1 ->].
  rewrite append_nil_l. step. rewrite Hnew. normalise. eauto.
Qed.

Lemma name_ok_spec b :
  name_ok b = true → string_empty b = false ∧ plain_string b = true.
Proof.
  unfold name_ok. intros [Hne ?]%andb_prop. split; [|done].
  by destruct (string_empty b).
Qed.

Lemma base_ok_lookup D0 name b s :
  base_ok D0 name b → is_Some (<[name := s]> D0 !! b).
Proof.
  intros [_ Hb]. rewrite lookup_insert_is_Some.
  destruct (decide (name = b)) as [->|]; [by left|right].
  by destruct Hb as [->|].
Qed.

(** The names after the first of an inheritance list: each comma flushes
    the name before it, the last name stays in the buffer. *)
Lemma scan_inheritance_tail name D0 pf ps ln mf cf bp l :
  ∀ rest b done pos,
  base_ok D0 name b → Forall (base_ok D0 name) l →
  ∃ pos' b' done',
    done' ++ [b'] = done ++ b :: l ∧ base_ok D0 name b' ∧
    scan load (chars (write_names false l) ++ rest)
      (mkLocals name b EmptyString EmptyString EmptyString pf ps
         (Some name) INHERITANCE ln pos true)
      (mkParser (<[name := mkSection done [] ∅]> D0) mf cf bp) =
    scan load rest
      (mkLocals name b' EmptyString EmptyString EmptyString pf ps
         (Some name) INHERITANCE ln pos' true)
      (mkParser (<[name := mkSection done' [] ∅]> D0) mf cf bp).
Proof.
  induction l as [|x l IH]; intros rest b done pos Hb Hl.
  { exists pos, b, done. by rewrite app_nil_l. }
  apply Forall_cons in Hl as [Hx Hl].
  destruct (name_ok_spec b (proj1 Hb)) as [Hempty _].
  destruct (name_ok_spec x (proj1 Hx)) as [_ Hplain].
  destruct (base_ok_lookup D0 name b (mkSection done [] ∅) Hb) as [sb Hsb].
  cbn [write_names]. rewrite !chars_app, <- !app_assoc. simpl.
  step. rewrite Hempty, Hsb. normalise. rewrite alter_insert_eq.
  normalise. step.
  destruct (scan_inheritance_name x (chars (write_names false l) ++ rest)
              name EmptyString EmptyString EmptyString pf ps (Some name) ln
              true (mkParser (<[name := mkSection (done ++ [b]) [] ∅]> D0)
                      mf cf bp)
              EmptyString (uint32_incr (uint32_incr pos)) Hplain)
    as [pos1 Hscan].
  rewrite append_nil_l in Hscan. rewrite Hscan.
  destruct (IH rest x (done ++ [b]) pos1 Hx Hl)
    as (pos' & b' & done' & Hdone & Hb' & ->).
  exists pos', b', done'. split; [|done].
  by rewrite Hdone, <- app_assoc.
Qed.

(** The same for an attribute list; an attribute needs no target. *)
Lemma scan_attribute_tail name D0 inh pf ps ln mf cf bp l :
  ∀ rest a done pos,
  name_ok a = true → Forall (λ x, name_ok x = true) l →
  ∃ pos' a' done',
    done' ++ [a'] = done ++ a :: l ∧ name_ok a' = true ∧
    scan load (chars (write_names false l) ++ rest)
      (mkLocals name EmptyString a EmptyString EmptyString pf ps
         (Some name) ATTRIBUTE ln pos true)
      (mkParser (<[name := mkSection inh done ∅]> D0) mf cf bp) =
    scan load rest
      (mkLocals name EmptyString a' EmptyString EmptyString pf ps
         (Some name) ATTRIBUTE ln pos' true)
      (mkParser (<[name := mkSection inh done' ∅]> D0) mf cf bp).
Proof.
  induction l as [|x l IH]; intros rest a done pos Ha Hl.
  { exists pos, a, done. by rewrite app_nil_l. }
  apply Forall_cons in Hl as [Hx Hl].
  destruct (name_ok_spec a Ha) as [Hempty _].
  destruct (name_ok_spec x Hx) as [_ Hplain].
  cbn [write_names]. rewrite !chars_app, <- !app_assoc. simpl.
  step. rewrite Hempty. normalise. rewrite alter_insert_eq.
  normalise. step.
  destruct (scan_attribute_name x (chars (write_names false l) ++ rest)
              name EmptyString EmptyString EmptyString pf ps (Some name) ln
              true (mkParser (<[name := mkSection inh (done ++ [a]) ∅]> D0)
                      mf cf bp)
              EmptyString (uint32_incr (uint32_incr pos)) Hplain)
    as [pos1 Hscan].
  rewrite append_nil_l in Hscan. rewrite Hscan.
  destruct (IH rest x (done ++ [a]) pos1 Hx Hl)
    as (pos' & a' & done' & Hdone & Ha' & ->).
  exists pos', a', done'. split; [|done].
  by rewrite Hdone, <- app_assoc.
Qed.

(** A whole attribute list and the newline that ends the header line. *)
Lemma scan_attributes name D0 inh pf ps ln mf cf bp a l rest pos :
  Forall (λ x, name_ok x = true) (a :: l) →
  ∃ ln' pos',
    scan load (chars (write_names true (a :: l)) ++ ch_newline :: rest)
      (mkLocals name EmptyString EmptyString EmptyString EmptyString pf ps
         (Some name) ATTRIBUTE ln pos true)
      (mkParser (<[name := mkSection inh [] ∅]> D0) mf cf bp) =
    scan load rest
      (mkLocals name EmptyString EmptyString EmptyString EmptyString pf ps
         (Some name) NEW_LINE ln' pos' true)
      (mkParser (<[name := mkSection inh (a :: l) ∅]> D0) mf cf bp).
Proof.
  intros [Ha Hl]%Forall_cons.
  destruct (name_ok_spec a Ha) as [_ Hplain].
  cbn [write_names]. rewrite chars_app, <- app_assoc.
  destruct (scan_attribute_name a
              (chars (write_names false l) ++ ch_newline :: rest)
              name EmptyString EmptyString EmptyString pf ps (Some name) ln
              true (mkParser (<[name := mkSection inh [] ∅]> D0) mf cf bp)
              EmptyString pos Hplain) as [pos1 Hscan].
  rewrite append_nil_l in Hscan. rewrite Hscan.
  destruct (scan_attribute_tail name D0 inh pf ps ln mf cf bp l
              (ch_newline :: rest) a [] pos1 Ha Hl)
    as (pos2 & a' & done' & Hdone & Ha' & ->).
  destruct (name_ok_spec a' Ha') as [Hempty _].
  step. rewrite Hempty. normalise. rewrite alter_insert_eq. normalise.
  rewrite Hdone. eauto.
Qed.

(** The header line of a section that is new: the name, the bases, the
    attributes and the newline. *)
Lemma scan_header_line name s rest sec pf ps ptr ln pos D0 mf cf bp :
  plain_string name = true → D0 !! name = None →
  Forall (base_ok D0 name) (inheritances s) →
  Forall (λ x, name_ok x = true) (attributes s) →
  ∃ ln' pos',
    scan load
      ("["%char :: chars name ++ "]"%char ::
       chars (match inheritances s with
              | [] => EmptyString
              | l => " : " +:+ write_names true l
              end) ++
       chars (match attributes s with
              | [] => EmptyString
              | l => " = " +:+ write_names true l
              end) ++ ch_newline :: rest)
      (mkLocals sec EmptyString EmptyString EmptyString EmptyString pf ps
         ptr NEW_LINE ln pos true)
      (mkParser D0 mf cf bp) =
    scan load rest
      (mkLocals name EmptyString EmptyString EmptyString EmptyString pf ps
         (Some name) NEW_LINE ln' pos' true)
      (mkParser (<[name := mkSection (inheritances s) (attributes s) ∅]> D0)
         mf cf bp).
Proof.
  intros Hname Hnew Hinh Hatt.
  destruct (scan_header name
              (chars (match inheritances s with
                      | [] => EmptyString
                      | l => " : " +:+ write_names true l
                      end) ++
               chars (match attributes s with
                      | [] => EmptyString
                      | l => " = " +:+ write_names true l
                      end) ++ ch_newline :: rest)
              sec pf ps ptr ln pos D0 mf cf bp Hname Hnew) as [pos1 ->].
  unfold empty_section.
  destruct (inheritances s) as [|b l].
  - destruct (attributes s) as [|a l'].
    + simpl. step. eauto.
    + rewrite chars_app. simpl. do 3 step.
      apply scan_attributes. done.
  - apply Forall_cons in Hinh as [Hb Hl].
    destruct (name_ok_spec b (proj1 Hb)) as [_ Hplain].
    cbn [write_names]. rewrite !chars_app, <- !app_assoc. simpl. do 3 step.
    lazymatch goal with
    | |- context [scan load (chars b ++ ?r) _ ?G] =>
        destruct (scan_inheritance_name b r name EmptyString EmptyString
                    EmptyString pf ps (Some name) ln true G EmptyString
                    (uint32_incr (uint32_incr (uint32_incr pos1))) Hplain)
          as [pos2 Hscan]
    end.
    rewrite append_nil_l in Hscan. rewrite Hscan.
    lazymatch goal with
    | |- context [scan load (chars (write_names false l) ++ ?r) _ _] =>
        destruct (scan_inheritance_tail name D0 pf ps ln mf cf bp l r b []
                    pos2 Hb Hl)
          as (pos3 & b' & done' & Hdone & Hb' & ->)
    end.
    destruct (name_ok_spec b' (proj1 Hb')) as [Hempty _].
    destruct (base_ok_lookup D0 name b' (mkSection done' [] ∅) Hb')
      as [sb Hsb].
    simpl in Hdone.
    destruct (attributes s) as [|a l'].
    + simpl. step. rewrite Hempty, Hsb. normalise.
      rewrite alter_insert_eq. normalise. rewrite Hdone. eauto.
    + rewrite chars_app. simpl. do 2 step.
      rewrite Hempty, Hsb. normalise.
      rewrite alter_insert_eq. normalise. rewrite Hdone. step.
      apply scan_attributes. done.
Qed.

(** A line [key = value] of a section whose map does not hold the key. *)
Lemma scan_value_line name D0 inh att vals k v rest pf ps ln pos mf cf bp :
  name_ok k = true → value_ok v = true → vals !! k = None →
  ∃ ln' pos',
    scan load (chars k ++ chars " = " ++ chars v ++ ch_newline :: rest)
      (mkLocals name EmptyString EmptyString EmptyString EmptyString pf ps
         (Some name) NEW_LINE ln pos true)
      (mkParser (<[name := mkSection inh att vals]> D0) mf cf bp) =
    scan load rest
      (mkLocals name EmptyString EmptyString EmptyString EmptyString pf ps
         (Some name) NEW_LINE ln' pos' true)
      (mkParser (<[name := mkSection inh att (<[k := v]> vals)]> D0) mf cf bp).
Proof.
  intros Hk Hv Hnew. destruct (name_ok_spec k Hk) as [Hempty Hplain].
  destruct k as [|c k]; [done|].
  apply plain_string_cons in Hplain as [Hc Hplain].
  rewrite chars_cons, <- app_comm_cons.
  rewrite scan_cons, dispatch_plain by done.
  unfold case_default, push_back. normalise.
  lazymatch goal with
  | |- context [scan load (chars k ++ ?r) _ ?G] =>
      destruct (scan_key_name k r name EmptyString EmptyString EmptyString
                  pf ps (Some name) ln true G (String c EmptyString)
                  (uint32_incr pos) Hplain) as [pos1 Hscan]
  end.
  rewrite append_nil_l.
  rewrite append_cons, append_nil_l in Hscan. rewrite Hscan.
  simpl. do 2 step. rewrite lookup_insert_eq. simpl. rewrite Hnew.
  normalise. rewrite alter_insert_eq. normalise. step.
  lazymatch goal with
  | |- context [scan load (chars v ++ ?r) _ ?G] =>
      destruct (scan_value_text v r name EmptyString EmptyString
                  (String c k) pf ps (Some name) ln true G EmptyString
                  (uint32_incr (uint32_incr (uint32_incr pos1))) VALUE
                  (or_introl eq_refl) Hv)
        as (pos2 & act & Hact & Hscan')
  end.
  rewrite append_nil_l in Hscan'. rewrite Hscan'.
  destruct Hact as [-> | ->]; step; rewrite alter_insert_eq; normalise;
    rewrite insert_insert_eq; eauto.
Qed.

(** The value lines of a section, for keys that are pairwise distinct and
    new to the map. *)
Lemma scan_value_lines name D0 inh att pf ps mf cf bp kvs :
  ∀ vals rest ln pos,
  NoDup kvs.*1 → (∀ k, k ∈ kvs.*1 → vals !! k = None) →
  Forall (λ kv, name_ok kv.1 = true ∧ value_ok kv.2 = true) kvs →
  ∃ ln' pos',
    scan load (chars (write_values kvs) ++ rest)
      (mkLocals name EmptyString EmptyString EmptyString EmptyString pf ps
         (Some name) NEW_LINE ln pos true)
      (mkParser (<[name := mkSection inh att vals]> D0) mf cf bp) =
    scan load rest
      (mkLocals name EmptyString EmptyString EmptyString EmptyString pf ps
         (Some name) NEW_LINE ln' pos' true)
      (mkParser
         (<[name := mkSection inh att
                      (foldl (λ m kv, <[kv.1 := kv.2]> m) vals kvs)]> D0)
         mf cf bp).
Proof.
  induction kvs as [|[k v] kvs IH]; intros vals rest ln pos Hdup Hnew Hok.
  { simpl. eauto. }
  apply NoDup_cons in Hdup as [Hk Hdup].
  apply Forall_cons in Hok as [[Hkok Hvok] Hok]. simpl in *.
  rewrite !chars_app, <- !app_assoc, (chars_cons ch_newline), <- app_comm_cons.
  destruct (scan_value_line name D0 inh att vals k v
              (chars (write_values kvs) ++ rest) pf ps ln pos mf cf bp
              Hkok Hvok) as (ln1 & pos1 & ->).
  { apply Hnew. by left. }
  apply IH; [done| |done].
  intros k' Hk'. rewrite lookup_insert_ne by (by intros ->).
  apply Hnew. by right.
Qed.

Lemma foldl_insert_reverse {A} (l : list (string * A)) (m : gmap string A) :
  foldl (λ m kv, <[kv.1 := kv.2]> m) m l =
  foldr (λ kv m, <[kv.1 := kv.2]> m) m (reverse l).
Proof.
  revert m. induction l as [|kv l IH]; intros m; [done|].
  by rewrite reverse_cons, foldr_app, <- IH.
Qed.

(** Inserting the entries of a map, in any order, builds the map. *)
Lemma foldl_insert_entries {A} (l : list (string * A)) (m : gmap string A) :
  l ≡ₚ map_to_list m → foldl (λ m kv, <[kv.1 := kv.2]> m) ∅ l = m.
Proof.
  intros Hl. rewrite foldl_insert_reverse.
  change (foldr _ ∅ (reverse l)) with (list_to_map (reverse l) : gmap string A).
  rewrite <- (list_to_map_to_list m).
  apply list_to_map_proper.
  - rewrite reverse_Permutation, Hl. apply NoDup_fst_map_to_list.
  - by rewrite reverse_Permutation.
Qed.

(** A whole section, written as [save] writes it, for a name that is new. *)
Lemma scan_section name s kvs rest sec pf ps ptr ln pos D0 mf cf bp :
  D0 !! name = None → section_ok name s →
  Forall (λ b, b = name ∨ is_Some (D0 !! b)) (inheritances s) →
  kvs ≡ₚ map_to_list (values s) →
  ∃ ln' pos',
    scan load (chars (write_section name s kvs) ++ rest)
      (mkLocals sec EmptyString EmptyString EmptyString EmptyString pf ps
         ptr NEW_LINE ln pos true)
      (mkParser D0 mf cf bp) =
    scan load rest
      (mkLocals name EmptyString EmptyString EmptyString EmptyString pf ps
         (Some name) NEW_LINE ln' pos' true)
      (mkParser (<[name := s]> D0) mf cf bp).
Proof.
  intros Hnew (Hname & Hinh & Hatt & Hvals) Hbases Hkvs.
  unfold write_section.
  rewrite !chars_app, <- !app_assoc, (chars_cons ch_newline), chars_app,
    <- !app_comm_cons, <- app_assoc.
  change (chars "[") with ["["%char]. change (chars "]") with ["]"%char].
  cbn [app].
  destruct (scan_header_line name s
              (chars (write_values kvs) ++
               chars (String ch_newline EmptyString) ++ rest)
              sec pf ps ptr ln pos D0 mf cf bp Hname Hnew)
    as (ln1 & pos1 & ->); [|done|].
  { apply Forall_forall. intros b Hb. split.
    - by eapply Forall_forall in Hinh.
    - by eapply Forall_forall in Hbases. }
  destruct (scan_value_lines name D0 (inheritances s) (attributes s) pf ps
              mf cf bp kvs ∅
              (chars (String ch_newline EmptyString) ++ rest) ln1 pos1)
    as (ln2 & pos2 & ->).
  { rewrite Hkvs. apply NoDup_fst_map_to_list. }
  { intros k _. apply lookup_empty. }
  { apply Forall_forall. intros [k v] Hkv. apply Hvals.
    rewrite Hkvs in Hkv. by apply elem_of_map_to_list in Hkv. }
  rewrite (foldl_insert_entries kvs (values s) Hkvs).
  simpl. step. destruct s. eauto.
Qed.

(** The sections of a traversal, one after the other. *)
Lemma scan_sections pf ps mf cf bp t :
  ∀ D0 seen rest sec ptr ln pos,
  NoDup t.*1.*1 → (∀ name, name ∈ t.*1.*1 → D0 !! name = None) →
  (∀ b, b ∈ seen → is_Some (D0 !! b)) → bases_first seen t →
  Forall (λ e, section_ok e.1.1 e.1.2 ∧ e.2 ≡ₚ map_to_list (values e.1.2)) t →
  ∃ sec' ptr' ln' pos',
    scan load (chars (save t) ++ rest)
      (mkLocals sec EmptyString EmptyString EmptyString EmptyString pf ps
         ptr NEW_LINE ln pos true)
      (mkParser D0 mf cf bp) =
    scan load rest
      (mkLocals sec' EmptyString EmptyString EmptyString EmptyString pf ps
         ptr' NEW_LINE ln' pos' true)
      (mkParser (foldl (λ D e, <[e.1.1 := e.1.2]> D) D0 t) mf cf bp).
Proof.
  induction t as [|[[name s] kvs] t IH];
    intros D0 seen rest sec ptr ln pos Hdup Hnew Hseen Hbases Hok.
  { simpl. eauto. }
  apply NoDup_cons in Hdup as [Hname Hdup].
  apply Forall_cons in Hok as [[Hs Hkvs] Hok].
  destruct Hbases as [Hb Hbases].
  simpl in Hname, Hdup, Hnew, Hb, Hbases, Hs, Hkvs.
  change (save ((name, s, kvs) :: t)) with (write_section name s kvs +:+ save t).
  rewrite chars_app, <- app_assoc.
  destruct (scan_section name s kvs (chars (save t) ++ rest) sec pf ps ptr
              ln pos D0 mf cf bp) as (ln1 & pos1 & ->); [|done| |done|].
  { apply Hnew. by left. }
  { apply Forall_forall. intros b Hin.
    eapply Forall_forall in Hb; [|done].
    apply elem_of_cons in Hb as [->|Hb]; [by left|right; by apply Hseen]. }
  apply (IH _ (name :: seen)); [done| | |done|done].
  - intros name' Hin. rewrite lookup_insert_ne by (by intros ->).
    apply Hnew. by right.
  - intros b Hin. rewrite lookup_insert_is_Some.
    destruct (decide (name = b)); [by left|right; split; [done|]].
    apply elem_of_cons in Hin as [->|Hin]; [done|by apply Hseen].
Qed.

End ReadBack.

(** C7, as the code has it.  Take a document whose section names are plain
    (none of the characters the switch of [load] treats apart), whose
    inheritance names, attributes and keys are plain and not empty, and
    whose values hold plain characters and commas only; let [save] visit it
    in an order where every base of a section is the section itself or was
    visited before.  Then loading the saved text into a new parser returns,
    whatever the depth allowed for includes, with exactly this document and
    without a diagnostic. *)
Theorem save_load_round_trip (D : gmap string SectionData) (t : Traversal)
    (fs : string → option string) (path : string) (fuel : nat) :
  is_traversal D t → document_ok D → bases_first [] t →
  fs path = Some (save t) →
  ∃ G, load fs (S fuel) path new_parser = Some G ∧
       _section_data G = D ∧ _msg_functor G = Some [].
Proof.
  intros [Hperm Hvals] Hok Hbases Hfile.
  simpl. rewrite Hfile. fold (chars (save t)).
  rewrite <- (app_nil_r (chars (save t))).
  destruct (scan_sections (load fs fuel) EmptyString EmptyString (Some [])
              path EmptyString t ∅ [] [] EmptyString None 1 0)
    as (sec' & ptr' & ln' & pos' & Hscan); [| | |done| |].
  - rewrite Hperm. apply NoDup_fst_map_to_list.
  - intros name _. apply lookup_empty.
  - intros b Hb. by apply elem_of_nil in Hb.
  - apply Forall_forall. intros [[name s] kvs] He. split.
    + apply Hok. apply elem_of_map_to_list. rewrite <- Hperm.
      apply (list_elem_of_fmap_2 fst) in He. done.
    + by eapply Forall_forall in Hvals.
  - change (with_current_file path new_parser)
      with (mkParser ∅ (Some []) path EmptyString).
    change initial_locals
      with (mkLocals EmptyString EmptyString EmptyString EmptyString
              EmptyString EmptyString EmptyString None NEW_LINE 1 0 true).
    rewrite Hscan, scan_nil. eexists. split; [reflexivity|].
    split; [|done]. simpl.
    rewrite <- (foldl_fmap (λ m kv, <[kv.1 := kv.2]> m) ∅ t fst).
    by apply foldl_insert_entries.
Qed.

Lemma save_load_round_trip_witness :
  ∃ G, load (single_file "out.cfg" (save family_traversal)) 1 "out.cfg"
         new_parser = Some G ∧
       _section_data G = family_document ∧ _msg_functor G = Some [].
Proof.
  apply (save_load_round_trip family_document family_traversal
           (single_file "out.cfg" (save family_traversal)) "out.cfg" 0).
  - refine (bool_decide_unpack _ _); vm_compute; exact I.
  - refine (bool_decide_unpack _ _); vm_compute; exact I.
  - refine (bool_decide_unpack _ _); vm_compute; exact I.
  - reflexivity.
Defined.

(** The unconditional round trip fails on a value with a space in it:
    [save] writes the value bare, and [load] drops the spaces of a bare
    value. *)
Lemma round_trip_fails :
  is_traversal spaced_document spaced_traversal ∧
  (∃ G, (∀ fuel, load (single_file "out.cfg" (save spaced_traversal)) (S fuel)
                   "out.cfg" new_parser = Some G) ∧
        stored G "s" "k" = Some "ab" ∧
        stored (document spaced_document) "s" "k" = Some "a b") ∧
  ¬ round_trip_as_stated.
Proof.
  assert (is_traversal spaced_document spaced_traversal) as Htrav.
  { refine (bool_decide_unpack _ _); vm_compute; exact I. }
  assert (∃ G, (∀ fuel, load (single_file "out.cfg" (save spaced_traversal))
                          (S fuel) "out.cfg" new_parser = Some G) ∧
               stored G "s" "k" = Some "ab" ∧
               stored (document spaced_document) "s" "k" = Some "a b")
    as (G & Hload & Hread & Hwritten).
  { eexists. split; [intros fuel; vm_compute; reflexivity|].
    split; reflexivity. }
  split; [done|]. split; [eauto|].
  intros Hstated.
  destruct (Hstated spaced_document spaced_traversal
              (single_file "out.cfg" (save spaced_traversal)) "out.cfg"
              Htrav eq_refl) as (fuel & G' & Hload' & Hdoc).
  destruct fuel as [|fuel]; [done|].
  rewrite Hload in Hload'. injection Hload' as <-.
  unfold stored in Hread, Hwritten. rewrite Hdoc in Hread.
  simpl in Hwritten. congruence.
Qed.

(** * Further properties *)

(** ** Membership queries *)

Lemma contains_elem_of l x : contains l x = true ↔ x ∈ l.
Proof.
  induction l as [|y l IH]; simpl.
  - split; [done|]. by intros ?%elem_of_nil.
  - destruct (String.eqb y x) eqn:Heq.
    + apply String.eqb_eq in Heq as ->. split; [|done]. intros _. by left.
    + apply String.eqb_neq in Heq. rewrite IH, elem_of_cons.
      split; [by right|]. by intros [->|].
Qed.

(** [hasAttribute] and [isInheritedFrom] are membership in the lists that
    [getAttributes] and [getInheritances] return, and they never call the
    message callback, missing section or not.  The other five queries
    return the parser as it is when the section exists, and send one and
    the same message, answering [false] or the empty list, when it does
    not; [hasAttributes] and [hasInheritances] say whether the lists are
    non-empty. *)
Theorem section_queries_agree (G : CFGParser) (sec x : string) :
  (hasAttribute G sec x = true ↔ x ∈ (getAttributes G sec).1) ∧
  (isInheritedFrom G sec x = true ↔ x ∈ (getInheritances G sec).1) ∧
  ((hasAttributes G sec).1 = true ↔ (getAttributes G sec).1 ≠ []) ∧
  ((hasInheritances G sec).1 = true ↔ (getInheritances G sec).1 ≠ []) ∧
  (hasSection G sec = true →
     (hasAttributes G sec).2 = G ∧ (getAttributes G sec).2 = G ∧
     (hasInheritances G sec).2 = G ∧ (getInheritances G sec).2 = G ∧
     (hasKey G sec x).2 = G) ∧
  (hasSection G sec = false →
     hasAttributes G sec = (false, notify (not_exist sec) G) ∧
     getAttributes G sec = ([], notify (not_exist sec) G) ∧
     hasInheritances G sec = (false, notify (not_exist sec) G) ∧
     getInheritances G sec = ([], notify (not_exist sec) G) ∧
     hasKey G sec x = (false, notify (not_exist sec) G) ∧
     hasAttribute G sec x = false ∧ isInheritedFrom G sec x = false).
Proof.
  unfold hasAttribute, isInheritedFrom, hasAttributes, hasInheritances,
    getAttributes, getInheritances, hasKey, hasSection, not_exist.
  destruct (_section_data G !! sec) as [s|]; simpl.
  - rewrite !contains_elem_of.
    repeat split; try done.
    all: destruct (attributes s), (inheritances s); done.
  - repeat split; try done.
    all: by intros ?%elem_of_nil.
Qed.

Lemma section_queries_agree_witness :
  hasAttributes doc_array "t" = (false, notify (not_exist "t") doc_array) ∧
  (hasAttributes doc_array "s").2 = doc_array.
Proof.
  destruct (section_queries_agree doc_array "t" "flag")
    as (_ & _ & _ & _ & _ & Hmissing).
  destruct (section_queries_agree doc_array "s" "flag")
    as (_ & _ & _ & _ & Hpresent & _).
  split.
  - apply Hmissing. reflexivity.
  - apply Hpresent. reflexivity.
Defined.

(** ** [set] and the readers *)

(** A value written by [set] is what [getString] and [get] read back,
    whatever the default; a second [set] of the same key replaces the
    first. *)
Theorem set_then_read {T : Type} (to_string : T → string)
    (conv : string → option T) (G : CFGParser) (sec k : string) (v v' : T)
    (d : string) (dflt : T) :
  is_Some (stored G sec k) →
  getString (set to_string G sec k v) sec k d = to_string v ∧
  set to_string (set to_string G sec k v) sec k v' = set to_string G sec k v' ∧
  (string_empty (to_string v) = false → conv (to_string v) = Some v →
   get conv (set to_string G sec k v) sec k dflt = Returned v).
Proof.
  intros [old Hold]. unfold stored in Hold.
  destruct (_section_data G !! sec) as [s|] eqn:Hsec; [|done].
  simpl in Hold.
  assert (set to_string G sec k v =
          update_section sec
            (λ s, with_values (<[k := to_string v]> (values s)) s) G) as Hset.
  { unfold set. by rewrite Hsec, Hold. }
  assert (getString (set to_string G sec k v) sec k d = to_string v) as Hread.
  { rewrite Hset. unfold getString.
    rewrite lookup_update_section, decide_True, Hsec by done. simpl.
    by rewrite lookup_insert_eq. }
  split; [done|]. split.
  - rewrite Hset. unfold set at 1.
    rewrite lookup_update_section, decide_True, Hsec by done. simpl.
    rewrite lookup_insert_eq.
    unfold set. rewrite Hsec, Hold.
    unfold update_section, with_section_data. simpl. f_equal.
    rewrite alter_alter_eq. apply alter_ext. intros s0 _.
    unfold with_values. simpl. by rewrite insert_insert_eq.
  - intros Hne Hconv. unfold get.
    assert (getString (set to_string G sec k v) sec k EmptyString = to_string v)
      as ->.
    { rewrite Hset. unfold getString.
      rewrite lookup_update_section, decide_True, Hsec by done. simpl.
      by rewrite lookup_insert_eq. }
    by rewrite Hne, Hconv.
Qed.

Lemma set_then_read_witness :
  getString (set (λ n : N, pretty n) doc_parent_child "p" "k" 7) "p" "k" "d" = "7".
Proof.
  destruct (set_then_read (λ n : N, pretty n) (λ _, Some 7) doc_parent_child
              "p" "k" 7 8 "d" 0) as (Hread & _).
  - by exists "5"%string.
  - exact Hread.
Defined.

(** ** Arrays *)








(** ** Vectors *)

(** When the array has at least two (three, four) elements, [getVec2]
    ([getVec3], [getVec4]) returns the first ones and sends nothing, the
    rest of the array being ignored.  When the array is empty they return
    the default after one message, and throw if no callback is installed
    (the call is not guarded); an exception of [getArray] goes through. *)
Theorem getVec_of_array {T : Type} (conv : string → option T)
    (G : CFGParser) (sec k : string) (l : list T) :
  getArray conv G sec k = Returned l →
  (∀ a b d, l !! 0%nat = Some a → l !! 1%nat = Some b →
     getVec2 conv G sec k d = Returned (mkVec2 a b, G)) ∧
  (∀ a b c d, l !! 0%nat = Some a → l !! 1%nat = Some b → l !! 2%nat = Some c →
     getVec3 conv G sec k d = Returned (mkVec3 a b c, G)) ∧
  (∀ a b c e d, l !! 0%nat = Some a → l !! 1%nat = Some b →
     l !! 2%nat = Some c → l !! 3%nat = Some e →
     getVec4 conv G sec k d = Returned (mkVec4 a b c e, G)) ∧
  (l = [] →
   (∀ d, getVec2 conv G sec k d =
           match _msg_functor G with
           | Some _ => Returned (d, notify (cannot_find sec k) G)
           | None => Thrown
           end) ∧
   (∀ d, getVec3 conv G sec k d =
           match _msg_functor G with
           | Some _ => Returned (d, notify (cannot_find sec k) G)
           | None => Thrown
           end) ∧
   (∀ d, getVec4 conv G sec k d =
           match _msg_functor G with
           | Some _ => Returned (d, notify (cannot_find sec k) G)
           | None => Thrown
           end)).
Proof.
  intros Harr. unfold getVec2, getVec3, getVec4. rewrite Harr. simpl.
  repeat split.
  - intros a b d Ha Hb. destruct l as [|x l]; [done|].
    unfold at_index. by rewrite Ha, Hb.
  - intros a b c d Ha Hb Hc. destruct l as [|x l]; [done|].
    unfold at_index. by rewrite Ha, Hb, Hc.
  - intros a b c e d Ha Hb Hc He. destruct l as [|x l]; [done|].
    unfold at_index. by rewrite Ha, Hb, Hc, He.
  - intros d. subst l. unfold call_msg_functor. by destruct (_msg_functor G).
  - intros d. subst l. unfold call_msg_functor. by destruct (_msg_functor G).
  - intros d. subst l. unfold call_msg_functor. by destruct (_msg_functor G).
Qed.

Lemma getVec_of_array_witness :
  getVec3 stoi doc_array "s" "arr" (mkVec3 0 0 0)%Z =
  Returned (mkVec3 10 20 30, doc_array)%Z.
Proof.
  destruct (getVec_of_array stoi doc_array "s" "arr" [10; 20; 30; 40; 50]%Z)
    as (_ & Hthree & _).
  - vm_compute. reflexivity.
  - by apply Hthree.
Defined.

(** ** What a load leaves alone *)

(** [load] only adds sections: every section the parser held before the
    call is there afterwards with the same bases, attributes and values,
    whatever the file and its includes declare; so the number of sections
    does not go down. *)
Theorem load_keeps_existing_sections (fs : string → option string)
    (fuel : nat) (path : string) (G G' : CFGParser) :
  load fs fuel path G = Some G' →
  (∀ name s, _section_data G !! name = Some s →
     _section_data G' !! name = Some s) ∧
  (∀ name, hasSection G name = true → hasSection G' name = true) ∧
  (getSectionCount G ≤ getSectionCount G')%nat.
Proof.
  intros Hload.
  assert (∀ name s, _section_data G !! name = Some s →
            _section_data G' !! name = Some s) as Hkept.
  { intros name s Hname. by eapply frozen_load. }
  split; [done|]. split.
  - intros name Hname. unfold hasSection in *.
    apply bool_decide_eq_true in Hname as [s Hs].
    apply bool_decide_eq_true. rewrite (Hkept name s Hs). eauto.
  - unfold getSectionCount. apply map_subseteq_size.
    apply map_subseteq_spec. done.
Qed.

Lemma load_keeps_existing_sections_witness :
  ∃ G', load (single_file "more.cfg" (text redeclares_q)) 1 "more.cfg" doc_q
          = Some G' ∧
        stored G' "q" "k" = Some "1" ∧ getSectionCount G' = 2%nat.
Proof.
  assert (∃ G', load (single_file "more.cfg" (text redeclares_q)) 1 "more.cfg"
                  doc_q = Some G' ∧ getSectionCount G' = 2%nat)
    as (G' & Hload & Hcount).
  { eexists. split; [vm_compute; reflexivity|]. vm_compute. reflexivity. }
  exists G'. split; [done|]. split; [|done].
  destruct (load_keeps_existing_sections _ _ _ _ _ Hload) as (Hkept & _).
  unfold stored.
  rewrite (Hkept "q" (mkSection [] ["old"] {["k" := "1"]}) eq_refl).
  reflexivity.
Defined.

(** ** The section pointer *)

Lemma ptr_valid_same L L' G G' :
  section_ptr L' = section_ptr L →
  (∀ p, is_Some (_section_data G !! p) → is_Some (_section_data G' !! p)) →
  ptr_valid L G → ptr_valid L' G'.
Proof. intros Hptr Hdom Hvalid p Hp. apply Hdom, Hvalid. by rewrite <- Hptr. Qed.

Lemma update_section_is_Some p f G q :
  is_Some (_section_data G !! q) →
  is_Some (_section_data (update_section p f G) !! q).
Proof.
  intros Hq. unfold update_section. simpl. by rewrite lookup_alter_is_Some.
Qed.

Lemma ptr_valid_PushInheritance L G :
  ptr_valid L G → ptr_valid (PushInheritance L G).1 (PushInheritance L G).2.
Proof.
  intros Hvalid. unfold PushInheritance.
  destruct (section_ptr L) as [p|] eqn:Hp; [|done].
  destruct (string_empty (inheritance L)); [done|]. simpl.
  eapply ptr_valid_same; [| |exact Hvalid]; [done|].
  intros q Hq. destruct (_section_data G !! inheritance L); [|done].
  by apply update_section_is_Some.
Qed.

Lemma ptr_valid_PushAttribute L G :
  ptr_valid L G → ptr_valid (PushAttribute L G).1 (PushAttribute L G).2.
Proof.
  intros Hvalid. unfold PushAttribute.
  destruct (section_ptr L) as [p|] eqn:Hp; [|done].
  destruct (string_empty (attribute L)); [done|]. simpl.
  eapply ptr_valid_same; [| |exact Hvalid]; [done|].
  intros q Hq. by apply update_section_is_Some.
Qed.

Lemma ptr_valid_newline_flush L G :
  ptr_valid L G → ptr_valid (newline_flush L G).1 (newline_flush L G).2.
Proof.
  intros Hvalid. unfold newline_flush.
  destruct (parse_action L); try done;
    try (by apply ptr_valid_PushInheritance);
    try (by apply ptr_valid_PushAttribute);
    (eapply ptr_valid_same; [| |exact Hvalid]; [done|]);
    intros q Hq; simpl; destruct (section_ptr L); try done;
    by apply update_section_is_Some.
Qed.

Lemma register_key_is_Some L G q :
  is_Some (_section_data G !! q) →
  is_Some (_section_data (register_key L G) !! q).
Proof.
  intros Hq. unfold register_key.
  destruct (section_ptr L) as [p|]; [|done].
  destruct (_section_data G !! p) as [s|]; [|done].
  destruct (values s !! key L); [done|]. by apply update_section_is_Some.
Qed.

Lemma ptr_valid_dispatch (load : string → CFGParser → option CFGParser)
    c next L G :
  (∀ path G0 G1 p, is_Some (_section_data G0 !! p) → load path G0 = Some G1 →
     is_Some (_section_data G1 !! p)) →
  ptr_valid L G → after ptr_valid (dispatch load c next L G).
Proof.
  intros Hload Hvalid.
  assert (∀ L' G', section_ptr L' = section_ptr L →
            _section_data G' = _section_data G → ptr_valid L' G') as Hsame.
  { intros L' G' Hptr HD. eapply ptr_valid_same; [done| |done].
    intros p. by rewrite HD. }
  apply dispatch_cases.
  - unfold case_comment_character.
    destruct (parse_action L); by apply Hsame.
  - unfold case_comment_multiline.
    destruct (parse_action L); by apply Hsame.
  - unfold case_space.
    destruct (parse_action L), (ignore_current_spaces L);
      try destruct (String.eqb _ _); by apply Hsame.
  - unfold case_backslash. destruct (parse_action L); try by apply Hsame.
    destruct next as [[[] [] [] [] [] [] [] []]|]; by apply Hsame.
  - unfold case_quote. destruct (parse_action L); by apply Hsame.
  - unfold case_hash. destruct (parse_action L); by apply Hsame.
  - unfold case_newline.
    pose proof (ptr_valid_newline_flush L G Hvalid) as Hflush.
    destruct (newline_flush L G) as [L1 G1]. simpl in Hflush.
    destruct (parse_action L1); exact Hflush.
  - unfold case_less. destruct (parse_action L); by apply Hsame.
  - unfold case_greater, IncludeFile.
    destruct (parse_action L); try by apply Hsame.
    destruct (load _ G) as [G1|] eqn:Hrec; [|done].
    eapply ptr_valid_same; [| |exact Hvalid]; [done|].
    intros p Hp. simpl. eauto.
  - unfold case_open_bracket.
    destruct (parse_action L); try by apply Hsame.
    by intros p Hp.
  - unfold case_close_bracket.
    destruct (parse_action L); try by apply Hsame.
    destruct (_section_data G !! section L) eqn:Hsec; [by apply Hsame|].
    intros p Hp. simpl in *. injection Hp as <-.
    rewrite lookup_insert_eq. eauto.
  - unfold case_comma.
    pose proof (ptr_valid_PushInheritance L G Hvalid).
    pose proof (ptr_valid_PushAttribute L G Hvalid).
    destruct (parse_action L), (PushInheritance L G), (PushAttribute L G);
      done || by apply Hsame.
  - unfold case_colon. destruct (parse_action L); by apply Hsame.
  - unfold case_equals.
    pose proof (ptr_valid_PushInheritance L G Hvalid) as Hpush.
    destruct (parse_action L); try by apply Hsame.
    + destruct (PushInheritance L G) as [L1 G1]. exact Hpush.
    + eapply ptr_valid_same; [| |exact Hvalid]; [done|].
      intros p. apply register_key_is_Some.
  - unfold case_default. destruct (parse_action L); by apply Hsame.
Qed.

(** [section_ptr] never dangles: if it is null or points to a section of
    the document (as it does at the start of every [load], where it is
    null), then it still does after any number of iterations of the loop,
    whatever the input and the files it includes. *)
Theorem section_ptr_stays_valid (fs : string → option string) (fuel : nat)
    (cs : list ascii) (L L' : Locals) (G G' : CFGParser) :
  ptr_valid L G →
  scan (load fs fuel) cs L G = Some (L', G') →
  ptr_valid L' G'.
Proof.
  intros Hvalid Hscan.
  eapply (scan_preserves ptr_valid); [|exact Hvalid|exact Hscan].
  intros c next L0 G0 H0.
  pose proof (ptr_valid_dispatch (load fs fuel) c next L0 G0) as Hstep.
  destruct (dispatch _ _ _ L0 G0); simpl in *; try done; apply Hstep; try done.
  all: intros path Ga Gb p [s Hs] Hload; rewrite (frozen_load fs p s fuel path Ga Gb Hs Hload); eauto.
Qed.

Lemma section_ptr_stays_valid_witness :
  ∃ L' G', scan (load (λ _, None) 0) (chars (text ["[a]"; "k = 1"]))
             initial_locals new_parser = Some (L', G') ∧
           ptr_valid L' G'.
Proof.
  assert (∃ L' G', scan (load (λ _, None) 0) (chars (text ["[a]"; "k = 1"]))
                     initial_locals new_parser = Some (L', G'))
    as (L' & G' & Hscan).
  { do 2 eexists. vm_compute. reflexivity. }
  exists L', G'. split; [done|].
  apply (section_ptr_stays_valid (λ _, None) 0
           (chars (text ["[a]"; "k = 1"])) initial_locals L' new_parser G');
    [|exact Hscan].
  intros p Hp. discriminate Hp.
Defined.

(** ** Current file, base path and callback *)

Lemma settings_kept_refl G : settings_kept G G.
Proof.
  split; [done|]. split; [done|]. exists [].
  destruct (_msg_functor G); simpl; by rewrite ?app_nil_r.
Qed.

Lemma settings_kept_trans G1 G2 G3 :
  settings_kept G1 G2 → settings_kept G2 G3 → settings_kept G1 G3.
Proof.
  intros (Hf1 & Hb1 & e1 & He1) (Hf2 & Hb2 & e2 & He2).
  split; [congruence|]. split; [congruence|]. exists (e1 ++ e2).
  rewrite He2, He1. destruct (_msg_functor G1); simpl; by rewrite ?app_assoc.
Qed.

Lemma settings_kept_notify m G : settings_kept G (notify m G).
Proof. split; [done|]. split; [done|]. by exists [m]. Qed.

Lemma settings_kept_update p f G : settings_kept G (update_section p f G).
Proof.
  destruct (settings_kept_refl G) as (Hf & Hb & e & He).
  split; [done|]. split; [done|]. by exists e.
Qed.

Ltac settings_kept_step :=
  simpl;
  first [ apply settings_kept_refl | apply settings_kept_update
        | apply settings_kept_notify ].

Lemma settings_kept_PushInheritance L G :
  settings_kept G (PushInheritance L G).2.
Proof.
  unfold PushInheritance. destruct (section_ptr L); [|settings_kept_step].
  destruct (string_empty (inheritance L)); [settings_kept_step|]. simpl.
  destruct (_section_data G !! inheritance L); settings_kept_step.
Qed.

Lemma settings_kept_PushAttribute L G :
  settings_kept G (PushAttribute L G).2.
Proof.
  unfold PushAttribute. destruct (section_ptr L); [|settings_kept_step].
  destruct (string_empty (attribute L)); settings_kept_step.
Qed.

Lemma settings_kept_newline_flush L G :
  settings_kept G (newline_flush L G).2.
Proof.
  unfold newline_flush.
  destruct (parse_action L);
    try apply settings_kept_PushInheritance;
    try apply settings_kept_PushAttribute;
    try settings_kept_step;
    destruct (section_ptr L); settings_kept_step.
Qed.

Lemma settings_kept_register_key L G : settings_kept G (register_key L G).
Proof.
  unfold register_key. destruct (section_ptr L) as [p|]; [|settings_kept_step].
  destruct (_section_data G !! p) as [s|]; [|settings_kept_step].
  destruct (values s !! key L); settings_kept_step.
Qed.

Lemma settings_kept_dispatch (load : string → CFGParser → option CFGParser)
    c next L G :
  (∀ path G0 G1, load path G0 = Some G1 →
     settings_kept G0 (with_current_file (_current_file G0) G1)) →
  after (λ _ G', settings_kept G G') (dispatch load c next L G).
Proof.
  intros Hload.
  pose proof (settings_kept_refl G) as Hrefl.
  pose proof (λ m, settings_kept_notify m G) as Hmsg.
  apply dispatch_cases.
  - unfold case_comment_character. by destruct (parse_action L).
  - unfold case_comment_multiline. by destruct (parse_action L).
  - unfold case_space.
    destruct (parse_action L), (ignore_current_spaces L); try done; apply Hmsg.
  - unfold case_backslash. destruct (parse_action L); try done; try apply Hmsg.
    destruct next as [[[] [] [] [] [] [] [] []]|]; try done; apply Hmsg.
  - unfold case_quote. by destruct (parse_action L).
  - unfold case_hash. destruct (parse_action L); try done; apply Hmsg.
  - unfold case_newline.
    pose proof (settings_kept_newline_flush L G) as Hflush.
    destruct (newline_flush L G) as [L1 G1]. exact Hflush.
  - unfold case_less. by destruct (parse_action L).
  - unfold case_greater, IncludeFile. destruct (parse_action L); try done.
    destruct (load _ G) as [G1|] eqn:Hrec; [|done]. simpl. eauto.
  - unfold case_open_bracket. destruct (parse_action L); try done; apply Hmsg.
  - unfold case_close_bracket.
    destruct (parse_action L); try done; try apply Hmsg.
    destruct (_section_data G !! section L); [apply Hmsg|done].
  - unfold case_comma.
    pose proof (settings_kept_PushInheritance L G).
    pose proof (settings_kept_PushAttribute L G).
    destruct (parse_action L), (PushInheritance L G), (PushAttribute L G);
      try done; apply Hmsg.
  - unfold case_colon. destruct (parse_action L); try done; apply Hmsg.
  - unfold case_equals.
    pose proof (settings_kept_PushInheritance L G).
    pose proof (settings_kept_register_key L G).
    destruct (parse_action L), (PushInheritance L G); try done; apply Hmsg.
  - unfold case_default. destruct (parse_action L); try done; apply Hmsg.
Qed.

Lemma settings_kept_load fs fuel path G G' :
  load fs fuel path G = Some G' →
  settings_kept (with_current_file path G) G'.
Proof.
  revert path G G'. induction fuel as [|fuel IH]; intros path G G' Hload; [done|].
  simpl in Hload. destruct (fs path) as [content|].
  - destruct (scan _ _ _ _) as [[L1 G1]|] eqn:Hscan; simplify_eq/=.
    eapply (scan_preserves
              (λ _ G0, settings_kept (with_current_file path G) G0));
      [| |exact Hscan]; [|apply settings_kept_refl].
    intros c next L G0 HG0.
    pose proof (settings_kept_dispatch (load fs fuel) c next L G0) as Hstep.
    destruct (dispatch _ _ _ L G0) as [L2 G2|L2 G2|]; simpl in *; [| |done].
    + eapply settings_kept_trans; [exact HG0|]. apply Hstep.
      intros p Ga Gb Hrec. specialize (IH p Ga Gb Hrec).
      destruct IH as (_ & Hb & e & He). split; [done|]. split; [done|].
      by exists e.
    + eapply settings_kept_trans; [exact HG0|]. apply Hstep.
      intros p Ga Gb Hrec. specialize (IH p Ga Gb Hrec).
      destruct IH as (_ & Hb & e & He). split; [done|]. split; [done|].
      by exists e.
  - simplify_eq. apply settings_kept_notify.
Qed.

(** When [load] returns, the current file is the file it was called on,
    however many files were included on the way, so that [saveCurrent]
    writes to that file; the base path is unchanged, and the callback, if
    one is installed, has kept every message it had and is still
    installed. *)
Theorem load_keeps_settings (fs : string → option string) (fuel : nat)
    (path : string) (G G' : CFGParser) (t : Traversal) :
  load fs fuel path G = Some G' →
  _current_file G' = path ∧ (saveCurrent G' t).1 = path ∧
  _base_path G' = _base_path G ∧
  ∃ extra, _msg_functor G' = (λ log, log ++ extra) <$> _msg_functor G.
Proof.
  intros Hload.
  destruct (settings_kept_load fs fuel path G G' Hload) as (Hf & Hb & e & He).
  repeat split; try done. by exists e.
Qed.

Lemma load_keeps_settings_witness :
  ∃ G', load main_and_included 2 "main.cfg" new_parser = Some G' ∧
        hasSection G' "i" = true ∧ _current_file G' = "main.cfg".
Proof.
  assert (∃ G', load main_and_included 2 "main.cfg" new_parser = Some G' ∧
                hasSection G' "i" = true) as (G' & Hload & Hsec).
  { eexists. split; [vm_compute; reflexivity|]. vm_compute. reflexivity. }
  exists G'. split; [done|]. split; [done|].
  by destruct (load_keeps_settings main_and_included 2 "main.cfg" new_parser
                 G' [] Hload) as (Hfile & _).
Defined.

(** ** Files without includes *)

Lemma dispatch_without_greater load load' c next L G :
  c ≠ ">"%char → dispatch load c next L G = dispatch load' c next L G.
Proof. destruct c as [[] [] [] [] [] [] [] []]; intros Hc; done. Qed.

Lemma dispatch_no_include_returns c next L G :
  dispatch no_include c next L G ≠ NoReturn.
Proof.
  apply dispatch_cases.
  - unfold case_comment_character. by destruct (parse_action L).
  - unfold case_comment_multiline. by destruct (parse_action L).
  - unfold case_space.
    by destruct (parse_action L), (ignore_current_spaces L).
  - unfold case_backslash. destruct (parse_action L); try done.
    destruct next as [[[] [] [] [] [] [] [] []]|]; done.
  - unfold case_quote. by destruct (parse_action L).
  - unfold case_hash. by destruct (parse_action L).
  - unfold case_newline. by destruct (newline_flush L G).
  - unfold case_less. by destruct (parse_action L).
  - unfold case_greater. by destruct (parse_action L).
  - unfold case_open_bracket. by destruct (parse_action L).
  - unfold case_close_bracket. destruct (parse_action L); try done.
    by destruct (_section_data G !! section L).
  - unfold case_comma.
    by destruct (parse_action L), (PushInheritance L G), (PushAttribute L G).
  - unfold case_colon. by destruct (parse_action L).
  - unfold case_equals.
    by destruct (parse_action L), (PushInheritance L G).
  - unfold case_default. by destruct (parse_action L).
Qed.

Lemma scan_without_greater load cs :
  ">"%char ∉ cs →
  ∀ L G, scan load cs L G = scan no_include cs L G ∧
         is_Some (scan no_include cs L G).
Proof.
  remember (length cs) as n eqn:Hn.
  assert (length cs ≤ n)%nat as Hlen by lia. clear Hn.
  revert cs Hlen. induction n as [|n IH]; intros cs Hlen Hcs L G.
  - destruct cs; [|simpl in Hlen; lia]. rewrite !scan_nil.
    rewrite (dispatch_without_greater load no_include) by done.
    pose proof (dispatch_no_include_returns ch_newline None L G).
    by destruct (dispatch no_include _ _ L G).
  - destruct cs as [|c rest].
    + rewrite !scan_nil.
      rewrite (dispatch_without_greater load no_include) by done.
      pose proof (dispatch_no_include_returns ch_newline None L G).
      by destruct (dispatch no_include _ _ L G).
    + apply not_elem_of_cons in Hcs as [Hc Hrest]. simpl in Hlen.
      rewrite !scan_cons.
      rewrite (dispatch_without_greater load no_include) by done.
      pose proof (dispatch_no_include_returns c (head rest) L G).
      destruct (dispatch no_include _ _ L G) as [L1 G1|L1 G1|]; [| |done].
      * apply IH; [lia|done].
      * destruct rest as [|c' rest']; [done|].
        apply not_elem_of_cons in Hrest as [_ Hrest']. simpl in Hlen.
        apply IH; [lia|done].
Qed.

(** A file without the character [>] holds no include that takes effect:
    [load] returns on it, and with the same result whatever the depth left
    for includes and whatever other files exist. *)
Theorem load_without_include_returns (fs fs' : string → option string)
    (fuel fuel' : nat) (path content : string) (G : CFGParser) :
  fs path = Some content → fs' path = Some content →
  ">"%char ∉ chars content →
  is_Some (load fs (S fuel) path G) ∧
  load fs (S fuel) path G = load fs' (S fuel') path G.
Proof.
  intros Hfs Hfs' Hcontent. simpl. rewrite Hfs, Hfs'.
  fold (chars content).
  destruct (scan_without_greater (load fs fuel) (chars content) Hcontent
              initial_locals (with_current_file path G)) as [-> [r Hr]].
  destruct (scan_without_greater (load fs' fuel') (chars content) Hcontent
              initial_locals (with_current_file path G)) as [-> _].
  split; [|done]. rewrite Hr. by eexists.
Qed.

Lemma load_without_include_returns_witness :
  is_Some (load main_and_included 1 "inc.cfg" new_parser).
Proof.
  refine (proj1 (load_without_include_returns main_and_included
                   main_and_included 0 0 "inc.cfg"
                   (text ["[i] : m"; "x = 9"; EmptyString])
                   new_parser eq_refl eq_refl _)).
  refine (bool_decide_unpack _ _). vm_compute. exact I.
Defined.

(** ** Includes *)

(** Loading the saved text of an includable traversal into a parser adds
    its sections to the document the parser holds and changes nothing else
    but the current file. *)
Lemma load_includable fs fuel path t (G : CFGParser) :
  fs path = Some (save t) → includable (_section_data G) t →
  load fs (S fuel) path G =
    Some (with_current_file path
            (with_section_data (add_sections (_section_data G) t) G)).
Proof.
  intros Hfile (Hdup & Hnew & Hbases & Hok).
  destruct G as [D mf cf bp]. simpl in *. rewrite Hfile.
  fold (chars (save t)). rewrite <- (app_nil_r (chars (save t))).
  destruct (scan_sections (load fs fuel) EmptyString EmptyString mf path bp t
              D (map_to_list D).*1 [] EmptyString None 1 0)
    as (sec' & ptr' & ln' & pos' & Hscan); [done| | |done|done|].
  - intros name Hname. by eapply Forall_forall in Hnew.
  - intros b Hb. apply list_elem_of_fmap in Hb as ([b' s] & -> & Hb).
    apply elem_of_map_to_list in Hb. simpl. by rewrite Hb.
  - change (with_current_file path (mkParser D mf cf bp))
      with (mkParser D mf path bp).
    change initial_locals
      with (mkLocals EmptyString EmptyString EmptyString EmptyString
              EmptyString EmptyString EmptyString None NEW_LINE 1 0 true).
    by rewrite Hscan, scan_nil.
Qed.

(** C9, as the code has it.  At the bracket that closes the argument of an
    include, the file named by the base path and the argument is loaded, by
    a parse with locals of its own, into the parser as it stands.  When
    that load returns, the outer parse goes on with the locals it had: line,
    character position, parse action, section pointer, flag and token
    buffers are those from before, except that the directive clears its
    argument buffer; every section the document held is unchanged, the
    current file and the base path are those from before and the callback
    has lost no message.  An included file that is the saved text of an
    includable traversal adds exactly its sections, which may inherit those
    of the outer file.  A file that cannot be opened costs one message and
    nothing else, and while the nested load does not return the outer parse
    does not either. *)
Theorem include_keeps_outer_parse (fs : string → option string) (fuel : nat)
    (next : option ascii) (L : Locals) (G : CFGParser) :
  parse_action L = INCLUDE →
  let path := _base_path G +:+ preprocessor_second L in
  let L1 := with_preprocessor_second EmptyString L in
  (∀ G1, load fs fuel path G = Some G1 →
     let G2 := with_current_file (_current_file G) G1 in
     dispatch (load fs fuel) ">"%char next L G = Continue L1 G2 ∧
     (∀ rest, scan (load fs fuel) (">"%char :: rest) L G =
              scan (load fs fuel) rest (incr_character_pos L1) G2) ∧
     (∀ name s, _section_data G !! name = Some s →
        _section_data G2 !! name = Some s) ∧
     settings_kept G G2) ∧
  (∀ content fuel', fs path = Some content → fuel = S fuel' →
     load fs fuel path G =
       snd <$> scan (load fs fuel') (chars content) initial_locals
                 (with_current_file path G)) ∧
  (∀ t fuel', fs path = Some (save t) → fuel = S fuel' →
     includable (_section_data G) t →
     dispatch (load fs fuel) ">"%char next L G =
       Continue L1 (with_section_data (add_sections (_section_data G) t) G)) ∧
  (fs path = None → fuel ≠ 0%nat →
     dispatch (load fs fuel) ">"%char next L G =
       Continue L1 (notify ("Cannot open file " +:+ quoted path +:+ ".") G)) ∧
  (load fs fuel path G = None →
     dispatch (load fs fuel) ">"%char next L G = NoReturn).
Proof.
  intros Hact path L1.
  assert (∀ nx, dispatch (load fs fuel) ">"%char nx L G =
          match load fs fuel path G with
          | Some G1 => Continue L1 (with_current_file (_current_file G) G1)
          | None => NoReturn
          end) as Hstep.
  { intros nx. change (dispatch (load fs fuel) ">"%char nx L G)
      with (case_greater (load fs fuel) ">"%char L G).
    unfold case_greater, IncludeFile. rewrite Hact. fold path.
    by destruct (load fs fuel path G). }
  split; [|split; [|split; [|split]]].
  - intros G1 Hload G2. split; [by rewrite Hstep, Hload|]. split; [|split].
    + intros rest. by rewrite scan_cons, Hstep, Hload.
    + intros name s Hname. subst G2. simpl. by eapply frozen_load.
    + destruct (settings_kept_load fs fuel path G G1 Hload)
        as (_ & Hb & e & He).
      split; [done|]. split; [done|]. by exists e.
  - intros content fuel' Hfile ->. simpl. by rewrite Hfile.
  - intros t fuel' Hfile -> Ht.
    rewrite Hstep, (load_includable fs fuel' path t G Hfile Ht).
    by destruct G.
  - intros Hfile Hfuel. rewrite Hstep.
    destruct fuel as [|fuel']; [done|]. simpl. rewrite Hfile.
    by destruct G.
  - intros Hload. by rewrite Hstep, Hload.
Qed.

Lemma include_keeps_outer_parse_witness :
  dispatch (load main_and_included 1) ">"%char None outer_at_include
    outer_document =
  Continue (with_preprocessor_second EmptyString outer_at_include)
    (with_section_data
       (add_sections (_section_data outer_document) included_traversal)
       outer_document).
Proof.
  destruct (include_keeps_outer_parse main_and_included 1 None outer_at_include
              outer_document eq_refl) as (_ & _ & Hadds & _).
  apply (Hadds included_traversal 0%nat); [reflexivity|reflexivity|].
  refine (bool_decide_unpack _ _). vm_compute. exact I.
Defined.

(** The whole of [main.cfg]: the key that follows the include goes to the
    section that was current before it, the included section is there and
    inherits from the outer one, and the current file is the outer file. *)
Lemma include_in_a_section_body :
  ∃ G, load main_and_included 2 "main.cfg" new_parser = Some G ∧
       stored G "m" "k" = Some "1" ∧ stored G "m" "j" = Some "2" ∧
       stored G "i" "x" = Some "9" ∧ getString G "i" "k" "none" = "1" ∧
       _current_file G = "main.cfg" ∧ _msg_functor G = Some [].
Proof.
  eexists. split; [vm_compute; reflexivity|].
  repeat split; vm_compute; reflexivity.
Qed.

(** C9 to the letter fails: after an include that was read and parsed, the
    argument buffer is not as it was before the bracket, the directive has
    cleared it; the same holds when the file cannot be opened. *)
Lemma include_clears_argument :
  preprocessor_second outer_at_include = "inc.cfg" ∧
  (∃ G', dispatch (load main_and_included 1) ">"%char None outer_at_include
           outer_document =
         Continue (with_preprocessor_second EmptyString outer_at_include) G' ∧
         hasSection G' "i" = true) ∧
  (∃ G', dispatch (load (λ _, None) 1) ">"%char None outer_at_include
           outer_document =
         Continue (with_preprocessor_second EmptyString outer_at_include) G') ∧
  ¬ include_as_stated.
Proof.
  assert (∃ G', dispatch (load main_and_included 1) ">"%char None
                  outer_at_include outer_document =
                Continue (with_preprocessor_second EmptyString
                            outer_at_include) G' ∧
                hasSection G' "i" = true) as (G' & Hstep & Hi).
  { eexists. split; [vm_compute; reflexivity|]. vm_compute. reflexivity. }
  split; [reflexivity|]. split; [by exists G'|]. split.
  { eexists. vm_compute. reflexivity. }
  intros Hstated.
  specialize (Hstated main_and_included 1%nat None outer_at_include
                outer_document _ G' eq_refl Hstep).
  discriminate Hstated.
Qed.

(** ** Comments and errors *)

(** Runs the switch on the next character, the locals being explicit. *)
Ltac run_step :=
  rewrite scan_cons; unfold ch_newline, ch_quote, ch_backslash;
  cbn [dispatch];
  unfold no_include, case_comment_character, case_comment_multiline,
    case_space, case_quote, case_hash, case_newline, case_less,
    case_open_bracket, case_close_bracket, case_comma, case_colon,
    case_equals, case_default, case_greater, newline_flush, PushInheritance,
    PushAttribute, register_key;
  normalise.

Section Skipping.

Variable load : string → CFGParser → option CFGParser.

(** In Comment and in Error a character other than [|] and the newline
    changes neither the token buffers nor the document; Comment stays
    Comment and sends nothing. *)
Lemma dispatch_skipped c next sec inh att k v pf ps ptr act ln pos flag
    D mf cf bp :
  c ≠ "|"%char → c ≠ ch_newline → act = ERROR ∨ act = COMMENT →
  ∃ act' mf',
    (act' = ERROR ∨ act' = COMMENT) ∧
    (act = COMMENT → act' = COMMENT ∧ mf' = mf) ∧
    dispatch load c next
      (mkLocals sec inh att k v pf ps ptr act ln pos flag)
      (mkParser D mf cf bp) =
    Continue (mkLocals sec inh att k v pf ps ptr act' ln pos flag)
      (mkParser D mf' cf bp).
Proof.
  intros Hbar Hnl Hact.
  destruct c as [[] [] [] [] [] [] [] []]; try done;
    destruct Hact as [-> | ->];
    (refine (ex_intro _ _ (ex_intro _ _ (conj _ (conj _ _))));
     [ | | reflexivity ]);
    first [ by left | by right | by intros ? | done ].
Qed.

Lemma scan_skipped_line sec inh att k v pf ps ptr ln flag D cf bp rest cs :
  "|"%char ∉ cs → ch_newline ∉ cs →
  ∀ act pos mf, act = ERROR ∨ act = COMMENT →
  ∃ ln' pos' mf',
    (act = COMMENT → mf' = mf) ∧
    scan load (cs ++ ch_newline :: rest)
      (mkLocals sec inh att k v pf ps ptr act ln pos flag)
      (mkParser D mf cf bp) =
    scan load rest
      (mkLocals sec inh att k v pf ps ptr NEW_LINE ln' pos' true)
      (mkParser D mf' cf bp).
Proof.
  induction cs as [|c cs IH]; intros Hbar Hnl act pos mf Hact.
  - rewrite app_nil_l.
    destruct Hact as [-> | ->]; run_step; do 3 eexists;
      (split; [|reflexivity]); done.
  - apply not_elem_of_cons in Hbar as [Hc1 Hbar].
    apply not_elem_of_cons in Hnl as [Hc2 Hnl].
    destruct (dispatch_skipped c (head (cs ++ ch_newline :: rest)) sec inh att
                k v pf ps ptr act ln pos flag D mf cf bp)
      as (act' & mf1 & Hact' & Hcomment & Hstep); [done..|].
    rewrite <- app_comm_cons, (scan_continue _ _ _ _ _ _ _ Hstep).
    unfold incr_character_pos, with_character_pos. simpl.
    destruct (IH Hbar Hnl act' (uint32_incr pos) mf1 Hact')
      as (ln' & pos' & mf' & Hmf & ->).
    exists ln', pos', mf'. split; [|done].
    intros ->. destruct (Hcomment eq_refl) as [-> ->]. by apply Hmf.
Qed.

(** A line comment: from any action but StringValue, a [;] and what
    follows it up to the newline, when no [|] is among it, change neither
    the document, nor the callback, nor any token buffer, and the next line
    starts in NewLine.  A token that was pending when the [;] was read is
    not flushed: it stays in its buffer. *)
Theorem line_comment_skipped sec inh att k v pf ps ptr act ln pos flag
    (G : CFGParser) (cs rest : list ascii) :
  act ≠ STRING_VALUE → "|"%char ∉ cs → ch_newline ∉ cs →
  ∃ ln' pos',
    scan load (";"%char :: cs ++ ch_newline :: rest)
      (mkLocals sec inh att k v pf ps ptr act ln pos flag) G =
    scan load rest
      (mkLocals sec inh att k v pf ps ptr NEW_LINE ln' pos' true) G.
Proof.
  intros Hact Hbar Hnl. destruct G as [D mf cf bp].
  assert (scan load (";"%char :: cs ++ ch_newline :: rest)
            (mkLocals sec inh att k v pf ps ptr act ln pos flag)
            (mkParser D mf cf bp) =
          scan load (cs ++ ch_newline :: rest)
            (mkLocals sec inh att k v pf ps ptr COMMENT ln (uint32_incr pos) flag)
            (mkParser D mf cf bp)) as ->.
  { destruct act; try done; by run_step. }
  destruct (scan_skipped_line sec inh att k v pf ps ptr ln flag D cf bp rest cs
              Hbar Hnl COMMENT (uint32_incr pos) mf (or_intror eq_refl))
    as (ln' & pos' & mf' & Hmf & ->).
  rewrite (Hmf eq_refl). eauto.
Qed.


(** In MultilineComment a character other than [|] and [;] changes nothing
    but the line count and the flag (at a newline). *)
Lemma dispatch_in_block c next sec inh att k v pf ps ptr ln pos flag G :
  c ≠ "|"%char → c ≠ ";"%char →
  ∃ ln' flag',
    dispatch load c next
      (mkLocals sec inh att k v pf ps ptr MULTILINE_COMMENT ln pos flag) G =
    Continue
      (mkLocals sec inh att k v pf ps ptr MULTILINE_COMMENT ln' pos flag') G.
Proof.
  intros Hbar Hsemi.
  destruct c as [[] [] [] [] [] [] [] []]; try done;
    do 2 eexists; reflexivity.
Qed.

(** A block comment: from any action but StringValue and MultilineComment,
    a [|], any characters other than [|] and [;], newlines included, and
    the closing [|] change neither the document nor any token buffer; the
    parser is then in NewLine, whatever the action before the comment. *)
Theorem block_comment_skipped sec inh att k v pf ps ptr act ln pos flag
    (G : CFGParser) (cs rest : list ascii) :
  act ≠ STRING_VALUE → act ≠ MULTILINE_COMMENT →
  "|"%char ∉ cs → ";"%char ∉ cs →
  ∃ ln' pos' flag',
    scan load ("|"%char :: cs ++ "|"%char :: rest)
      (mkLocals sec inh att k v pf ps ptr act ln pos flag) G =
    scan load rest
      (mkLocals sec inh att k v pf ps ptr NEW_LINE ln' pos' flag') G.
Proof.
  intros Hact1 Hact2 Hbar Hsemi.
  assert (scan load ("|"%char :: cs ++ "|"%char :: rest)
            (mkLocals sec inh att k v pf ps ptr act ln pos flag) G =
          scan load (cs ++ "|"%char :: rest)
            (mkLocals sec inh att k v pf ps ptr MULTILINE_COMMENT ln
               (uint32_incr pos) flag) G) as ->.
  { destruct act; try done; by run_step. }
  generalize (uint32_incr pos) as pos0. generalize ln as ln0.
  generalize flag as flag0.
  induction cs as [|c cs IH]; intros flag0 ln0 pos0.
  - rewrite app_nil_l. run_step. eauto.
  - apply not_elem_of_cons in Hbar as [Hc1 Hbar].
    apply not_elem_of_cons in Hsemi as [Hc2 Hsemi].
    destruct (dispatch_in_block c (head (cs ++ "|"%char :: rest)) sec inh att
                k v pf ps ptr ln0 pos0 flag0 G)
      as (ln1 & flag1 & Hstep); [done..|].
    rewrite <- app_comm_cons, (scan_continue _ _ _ _ _ _ _ Hstep).
    unfold incr_character_pos, with_character_pos. simpl.
    apply IH; done.
Qed.

End Skipping.

Lemma line_comment_skipped_witness :
  ∃ ln' pos',
    scan no_include (chars (text ["; a [comment] = 1"]))
      (at_line_start "s" EmptyString EmptyString 2 0) new_parser =
    scan no_include [] (at_line_start "s" EmptyString EmptyString ln' pos')
      new_parser.
Proof.
  apply (line_comment_skipped no_include "s" EmptyString EmptyString
           EmptyString EmptyString EmptyString EmptyString (Some "s")
           NEW_LINE 2 0 true new_parser (chars " a [comment] = 1") []).
  - discriminate.
  - refine (bool_decide_unpack _ _). vm_compute. exact I.
  - refine (bool_decide_unpack _ _). vm_compute. exact I.
Defined.


Lemma block_comment_skipped_witness :
  ∃ ln' pos' flag',
    scan no_include (chars "|one [x]" ++ ch_newline :: chars "two|")
      (at_line_start "s" EmptyString EmptyString 2 0) new_parser =
    scan no_include []
      (mkLocals "s" EmptyString EmptyString EmptyString EmptyString
         EmptyString EmptyString (Some "s") NEW_LINE ln' pos' flag')
      new_parser.
Proof.
  apply (block_comment_skipped no_include "s" EmptyString EmptyString
           EmptyString EmptyString EmptyString EmptyString (Some "s")
           NEW_LINE 2 0 true new_parser
           (chars "one [x]" ++ ch_newline :: chars "two") []).
  - discriminate.
  - discriminate.
  - refine (bool_decide_unpack _ _). vm_compute. exact I.
  - refine (bool_decide_unpack _ _). vm_compute. exact I.
Defined.

(** ** Bare and quoted values *)

Lemma is_blank_spec c : is_blank c = true → c = " "%char ∨ c = "009"%char.
Proof.
  unfold is_blank. intros [H|H]%orb_prop; apply Ascii.eqb_eq in H; auto.
Qed.

Lemma plain_not_blank c : plain c = true → is_blank c = false.
Proof.
  intros Hc. destruct (is_blank c) eqn:Hb; [|done].
  by apply is_blank_spec in Hb as [-> | ->].
Qed.

Section Values.

Variable load : string → CFGParser → option CFGParser.

(** Step on a character that is a space or a tab, a comma, or plain. *)
Ltac blank_or_plain Hc c :=
  apply orb_prop in Hc as [Hc|Hc];
  [ | apply is_blank_spec in Hc as [-> | ->] ].

(** In Key, while leading spaces are ignored, spaces and tabs are dropped
    and plain characters go to the key. *)
Lemma scan_key_text text rest sec inh att v pf ps ptr ln G :
  ∀ buf pos, key_text_ok text = true →
  ∃ pos',
    scan load (chars text ++ rest)
      (mkLocals sec inh att buf v pf ps ptr KEY ln pos true) G =
    scan load rest
      (mkLocals sec inh att (buf +:+ remove_blanks text) v pf ps ptr KEY ln
         pos' true) G.
Proof.
  induction text as [|c text IH]; intros buf pos Htext.
  { exists pos. by rewrite append_empty_r. }
  unfold key_text_ok in Htext. simpl in Htext.
  apply andb_prop in Htext as [Hc Htext].
  rewrite chars_cons, <- app_comm_cons. simpl.
  blank_or_plain Hc c.
  - rewrite (plain_not_blank c Hc).
    erewrite scan_continue by (rewrite dispatch_plain by done; reflexivity).
    normalise.
    destruct (IH (push_back buf c) (uint32_incr pos) Htext) as [pos' ->].
    exists pos'. by rewrite push_back_append.
  - run_step. apply IH. done.
  - run_step. apply IH. done.
Qed.

(** At the start of a line spaces and tabs are skipped, and the first
    plain character opens the key. *)
Lemma scan_line_start text rest sec inh att v pf ps ptr ln G :
  ∀ pos, key_text_ok text = true →
  ∃ pos' act,
    act = (if string_empty (remove_blanks text) then NEW_LINE else KEY) ∧
    scan load (chars text ++ rest)
      (mkLocals sec inh att EmptyString v pf ps ptr NEW_LINE ln pos true) G =
    scan load rest
      (mkLocals sec inh att (remove_blanks text) v pf ps ptr act ln pos' true) G.
Proof.
  induction text as [|c text IH]; intros pos Htext.
  { by exists pos, NEW_LINE. }
  pose proof Htext as Htext0.
  unfold key_text_ok in Htext. simpl in Htext.
  apply andb_prop in Htext as [Hc Htext].
  rewrite chars_cons, <- app_comm_cons. simpl.
  blank_or_plain Hc c.
  - rewrite (plain_not_blank c Hc).
    erewrite scan_continue by (rewrite dispatch_plain by done; reflexivity).
    normalise.
    destruct (scan_key_text text rest sec inh att v pf ps ptr ln G
                (push_back EmptyString c) (uint32_incr pos) Htext)
      as [pos' ->].
    exists pos', KEY. split; [done|].
    by rewrite push_back_append, append_nil_l.
  - run_step. apply IH. done.
  - run_step. apply IH. done.
Qed.

(** In Value and ValueArray likewise, the first comma leading from the one
    to the other. *)
Lemma scan_value_blanks text rest sec inh att k pf ps ptr ln G :
  ∀ buf pos act, act = VALUE ∨ act = VALUE_ARRAY → value_text_ok text = true →
  ∃ pos' act', (act' = VALUE ∨ act' = VALUE_ARRAY) ∧
    scan load (chars text ++ rest)
      (mkLocals sec inh att k buf pf ps ptr act ln pos true) G =
    scan load rest
      (mkLocals sec inh att k (buf +:+ remove_blanks text) pf ps ptr act' ln
         pos' true) G.
Proof.
  induction text as [|c text IH]; intros buf pos act Hact Htext.
  { exists pos, act. by rewrite append_empty_r. }
  unfold value_text_ok in Htext. simpl in Htext.
  apply andb_prop in Htext as [Hc Htext].
  rewrite chars_cons, <- app_comm_cons. simpl.
  blank_or_plain Hc c.
  - apply orb_prop in Hc as [Hc|Hc].
    + rewrite (plain_not_blank c Hc).
      erewrite scan_continue
        by (rewrite dispatch_plain by done; destruct Hact as [-> | ->];
            reflexivity).
      normalise.
      destruct (IH (push_back buf c) (uint32_incr pos) act Hact Htext)
        as (pos' & act' & Hact' & ->).
      exists pos', act'. by rewrite push_back_append.
    + apply Ascii.eqb_eq in Hc as ->.
      change (is_blank ","%char) with false. cbn iota.
      erewrite scan_continue by (destruct Hact as [-> | ->]; reflexivity).
      normalise.
      destruct (IH (push_back buf ","%char) (uint32_incr pos) VALUE_ARRAY
                  (or_intror eq_refl) Htext) as (pos' & act' & Hact' & ->).
      exists pos', act'. by rewrite push_back_append.
  - destruct Hact as [-> | ->]; run_step; by apply IH; auto.
  - destruct Hact as [-> | ->]; run_step; by apply IH; auto.
Qed.

(** A line [key = value] with a bare value, in the body of a section that
    does not hold the key: the value is stored under the key, both without
    their spaces and tabs, wherever these stand (so [a b = 1 2] stores [12]
    under [ab]); commas are kept. *)
Theorem bare_line_drops_blanks name D0 inh att vals ktext vtext rest
    pf ps ln pos mf cf bp :
  key_text_ok ktext = true → remove_blanks ktext ≠ EmptyString →
  value_text_ok vtext = true → vals !! remove_blanks ktext = None →
  ∃ ln' pos',
    scan load (chars ktext ++ "="%char :: chars vtext ++ ch_newline :: rest)
      (at_line_start name pf ps ln pos)
      (mkParser (<[name := mkSection inh att vals]> D0) mf cf bp) =
    scan load rest (at_line_start name pf ps ln' pos')
      (mkParser
         (<[name := mkSection inh att
                      (<[remove_blanks ktext := remove_blanks vtext]> vals)]> D0)
         mf cf bp).
Proof.
  intros Hk Hkne Hv Hnew. unfold at_line_start.
  destruct (scan_line_start ktext
              ("="%char :: chars vtext ++ ch_newline :: rest) name EmptyString
              EmptyString EmptyString pf ps (Some name) ln
              (mkParser (<[name := mkSection inh att vals]> D0) mf cf bp)
              pos Hk) as (pos1 & act & -> & ->).
  destruct (string_empty (remove_blanks ktext)) eqn:Hempty.
  { by apply string_empty_spec in Hempty. }
  run_step. rewrite lookup_insert_eq. simpl. rewrite Hnew.
  normalise. rewrite alter_insert_eq. normalise.
  lazymatch goal with
  | |- context [scan load (chars vtext ++ ?r) _ ?G] =>
      destruct (scan_value_blanks vtext r name EmptyString EmptyString
                  (remove_blanks ktext) pf ps (Some name) ln G EmptyString
                  (uint32_incr pos1) VALUE (or_introl eq_refl) Hv)
        as (pos2 & act & Hact & Hscan)
  end.
  rewrite append_nil_l in Hscan. rewrite Hscan.
  destruct Hact as [-> | ->]; run_step; rewrite alter_insert_eq; normalise;
    rewrite insert_insert_eq; eauto.
Qed.

(** Between the quotes a character other than the quote, the backslash and
    the newline is appended to the value. *)
Lemma dispatch_in_string c next sec inh att k v pf ps ptr ln pos flag G :
  c ≠ ch_quote → c ≠ ch_backslash → c ≠ ch_newline →
  dispatch load c next
    (mkLocals sec inh att k v pf ps ptr STRING_VALUE ln pos flag) G =
  Continue
    (mkLocals sec inh att k (push_back v c) pf ps ptr STRING_VALUE ln pos flag)
    G.
Proof.
  intros Hq Hb Hn. destruct c as [[] [] [] [] [] [] [] []]; done.
Qed.

(** An escaped text is read back as the text. *)
Lemma scan_escaped s sec inh att k pf ps ptr ln flag G :
  ∀ rest v pos,
  ∃ pos',
    scan load (chars (escape s) ++ rest)
      (mkLocals sec inh att k v pf ps ptr STRING_VALUE ln pos flag) G =
    scan load rest
      (mkLocals sec inh att k (v +:+ s) pf ps ptr STRING_VALUE ln pos' flag) G.
Proof.
  induction s as [|c s IH]; intros rest v pos.
  { exists pos. by rewrite append_empty_r. }
  cbn [escape].
  destruct (Ascii.eqb c ch_backslash) eqn:Hb;
    [|destruct (Ascii.eqb c ch_quote) eqn:Hq;
      [|destruct (Ascii.eqb c ch_newline) eqn:Hn]].
  - apply Ascii.eqb_eq in Hb as ->.
    rewrite !chars_cons, <- !app_comm_cons, scan_cons.
    unfold ch_backslash. cbn [dispatch head case_backslash parse_action].
    normalise.
    destruct (IH rest (push_back v ch_backslash) (uint32_incr pos)) as [pos' ->].
    exists pos'. by rewrite push_back_append.
  - apply Ascii.eqb_eq in Hq as ->.
    rewrite !chars_cons, <- !app_comm_cons, scan_cons.
    unfold ch_backslash, ch_quote.
    cbn [dispatch head case_backslash parse_action].
    normalise.
    destruct (IH rest (push_back v ch_quote) (uint32_incr pos)) as [pos' ->].
    exists pos'. by rewrite push_back_append.
  - apply Ascii.eqb_eq in Hn as ->.
    rewrite !chars_cons, <- !app_comm_cons, scan_cons.
    unfold ch_backslash, ch_newline.
    cbn [dispatch head case_backslash parse_action].
    normalise.
    destruct (IH rest (push_back v ch_newline) (uint32_incr pos)) as [pos' ->].
    exists pos'. by rewrite push_back_append.
  - apply Ascii.eqb_neq in Hb, Hq, Hn.
    rewrite chars_cons, <- app_comm_cons.
    erewrite scan_continue by (by apply dispatch_in_string).
    normalise.
    destruct (IH rest (push_back v c) (uint32_incr pos)) as [pos' ->].
    exists pos'. by rewrite push_back_append.
Qed.

(** A quoted value: whatever the text, writing it between double quotes
    with its backslashes, quotes and newlines as escape sequences (see
    [escape]) makes the line store exactly that text, spaces, commas and
    punctuation included, as one value. *)
Theorem quoted_value_read_back name D0 inh att vals ktext s rest
    pf ps ln pos mf cf bp :
  key_text_ok ktext = true → remove_blanks ktext ≠ EmptyString →
  vals !! remove_blanks ktext = None →
  ∃ ln' pos',
    scan load
      (chars ktext ++ "="%char :: " "%char :: ch_quote ::
       chars (escape s) ++ ch_quote :: ch_newline :: rest)
      (at_line_start name pf ps ln pos)
      (mkParser (<[name := mkSection inh att vals]> D0) mf cf bp) =
    scan load rest (at_line_start name pf ps ln' pos')
      (mkParser
         (<[name := mkSection inh att (<[remove_blanks ktext := s]> vals)]> D0)
         mf cf bp).
Proof.
  intros Hk Hkne Hnew. unfold at_line_start.
  destruct (scan_line_start ktext
              ("="%char :: " "%char :: ch_quote ::
               chars (escape s) ++ ch_quote :: ch_newline :: rest)
              name EmptyString EmptyString EmptyString pf ps (Some name) ln
              (mkParser (<[name := mkSection inh att vals]> D0) mf cf bp)
              pos Hk) as (pos1 & act & -> & ->).
  destruct (string_empty (remove_blanks ktext)) eqn:Hempty.
  { by apply string_empty_spec in Hempty. }
  run_step. rewrite lookup_insert_eq. simpl. rewrite Hnew.
  normalise. rewrite alter_insert_eq. normalise.
  do 2 run_step.
  lazymatch goal with
  | |- context [scan load (chars (escape s) ++ ?r) ?L ?G] =>
      destruct (scan_escaped s name EmptyString EmptyString
                  (remove_blanks ktext) pf ps (Some name) ln true G r
                  EmptyString
                  (uint32_incr (uint32_incr (uint32_incr pos1))))
        as (pos2 & Hscan)
  end.
  rewrite append_nil_l in Hscan. rewrite Hscan.
  do 2 run_step. rewrite alter_insert_eq. normalise.
  rewrite insert_insert_eq. eauto.
Qed.

End Values.

Lemma bare_line_drops_blanks_witness :
  remove_blanks "my key " = "mykey" ∧ remove_blanks " 1, 2" = "1,2" ∧
  ∃ ln' pos',
    scan no_include
      (chars "my key " ++ "="%char :: chars " 1, 2" ++ ch_newline :: [])
      (at_line_start "s" EmptyString EmptyString 2 0)
      (mkParser (<["s" := mkSection [] [] ∅]> ∅) (Some []) EmptyString
         EmptyString) =
    scan no_include [] (at_line_start "s" EmptyString EmptyString ln' pos')
      (mkParser
         (<["s" := mkSection [] []
                     (<[remove_blanks "my key " := remove_blanks " 1, 2"]> ∅)]> ∅)
         (Some []) EmptyString EmptyString).
Proof.
  split; [reflexivity|]. split; [reflexivity|].
  refine (bare_line_drops_blanks no_include "s" ∅ [] [] ∅ "my key " " 1, 2" []
            EmptyString EmptyString 2 0 (Some []) EmptyString EmptyString
            eq_refl _ eq_refl eq_refl).
  discriminate.
Defined.

Lemma quoted_value_read_back_witness :
  ∃ ln' pos',
    scan no_include
      (chars "motto " ++ "="%char :: " "%char :: ch_quote ::
       chars (escape ("a, b; " +:+ quoted "c" +:+ " [d]")) ++
       ch_quote :: ch_newline :: [])
      (at_line_start "s" EmptyString EmptyString 2 0)
      (mkParser (<["s" := mkSection [] [] ∅]> ∅) (Some []) EmptyString
         EmptyString) =
    scan no_include [] (at_line_start "s" EmptyString EmptyString ln' pos')
      (mkParser
         (<["s" := mkSection [] []
                     (<[remove_blanks "motto " :=
                          "a, b; " +:+ quoted "c" +:+ " [d]"]> ∅)]> ∅)
         (Some []) EmptyString EmptyString).
Proof.
  refine (quoted_value_read_back no_include "s" ∅ [] [] ∅ "motto "
            ("a, b; " +:+ quoted "c" +:+ " [d]") []
            EmptyString EmptyString 2 0 (Some []) EmptyString EmptyString
            eq_refl _ eq_refl).
  discriminate.
Defined.
